(** * CE13 Lab 8: the Morse tree, the Morse decoder and the button event detector

    A shallow embedding of [CMPE13_Lab8.X/Tree.c], which holds the Tree
    library ([TreeCreate]) followed by the Morse library ([MorseInit],
    [MorseDecode], [MorseCheckEvents]).

    Conventions of the embedding.
    - A [Node *] is an address of type [N]; [NULL] is address 0.  The heap is
      a finite map from addresses to [Node] records, together with the last
      address handed out and the answers the allocator will give to the
      coming [malloc] calls.
    - [TreeCreate] requests [sizeof (tree)] bytes, the size of a pointer and
      not of a [Node].  Sizes of cells are not part of this model: a
      successful [malloc] yields a cell that holds one [Node].
    - A [const char *] is the sequence of bytes found at [data[0]],
      [data[1]], ...; [data + k] drops the first [k] of them.  What lies past
      the end of an array is unspecified in C; here it is an explicit
      argument of whoever creates the array.
    - [int] is 32 bits wide, [char] is a signed byte and [uint8_t] an
      unsigned one; conversions are written out.
    - The headers [BOARD.h], [Morse.h] and [Buttons.h] are not part of the
      sources at hand.  The integer constants they define are collected in
      the class [Headers]; the enumeration [MorseEvent] is an inductive
      type. *)

From Stdlib Require Import Ascii.
From Stdlib Require String.
Import String.StringSyntax.
From stdpp Require Import base numbers option list gmap fin_maps.

Local Open Scope Z_scope.

(** ** Constants of the absent headers *)

Class Headers := {
  (* BOARD.h *)
  SUCCESS : Z;
  STANDARD_ERROR : Z;
  (* Morse.h, enum MorseChar *)
  MORSE_CHAR_DOT : Z;
  MORSE_CHAR_DASH : Z;
  MORSE_CHAR_END_OF_CHAR : Z;
  MORSE_CHAR_DECODE_RESET : Z;
  (* Morse.h, enum MorseEventLength *)
  MORSE_EVENT_LENGTH_DOWN_DASH : Z;
  MORSE_EVENT_LENGTH_UP_INTER_LETTER : Z;
  (* Buttons.h *)
  BUTTON_EVENT_4UP : Z;
  BUTTON_EVENT_4DOWN : Z
}.

(** Modelled from the spec: the constants of [BOARD.h], [Morse.h] and
    [Buttons.h], which are missing.  The thresholds are the spec's 50 and 100
    ticks (0.5 s and 1 s at 100 Hz, as the comment above [MorseCheckEvents]
    has them).  The spec gives no values for the others; they are the ones
    the headers of the course define.  The general theorems below hold for
    every [Headers] and state what they need of the constants as
    hypotheses; this instance serves the runs on concrete inputs. *)
Definition lab8_headers : Headers := {|
  SUCCESS := 1;
  STANDARD_ERROR := 0;
  MORSE_CHAR_DOT := 46;            (* '.' *)
  MORSE_CHAR_DASH := 45;           (* '-' *)
  MORSE_CHAR_END_OF_CHAR := 35;    (* '#' *)
  MORSE_CHAR_DECODE_RESET := 0;    (* '\0' *)
  MORSE_EVENT_LENGTH_DOWN_DASH := 50;
  MORSE_EVENT_LENGTH_UP_INTER_LETTER := 100;
  BUTTON_EVENT_4UP := 64;          (* 0x40 *)
  BUTTON_EVENT_4DOWN := 128        (* 0x80 *)
|}.

(** ** Machine integers *)

(** [(int) z] on a 32-bit two's complement machine. *)
Definition to_int (z : Z) : Z := (z + 2 ^ 31) `mod` 2 ^ 32 - 2 ^ 31.

(** [(char) z], a signed byte. *)
Definition to_char (z : Z) : Z := (z + 128) `mod` 256 - 128.

(** [(uint8_t) z]. *)
Definition to_uint8 (z : Z) : Z := z `mod` 256.

(** ** Memory *)

(** [Node *] *)
Abbreviation ptr := N (only parsing).

Definition NULL : ptr := 0%N.

(** [Node] of [Tree.h], with the three fields [Tree.c] reads and writes. *)
Record Node := mkNode {
  data : Z;
  leftChild : ptr;
  rightChild : ptr
}.

(** [const char *] values. *)
Definition cptr := nat → Z.

(** [*data] *)
Definition deref (d : cptr) : Z := d 0%nat.

(** [data + k] *)
Definition padd (d : cptr) (k : nat) : cptr := λ i, d (k + i)%nat.

(** A pointer to the first element of an array holding [xs]; [past i] is the
    byte found [i] places after the last element. *)
Definition array (xs : list Z) (past : nat → Z) : cptr :=
  λ i, match xs !! i with
       | Some x => x
       | None => past (i - length xs)%nat
       end.

Record Heap := mkHeap {
  cells : gmap N Node;
  brk : N;                (* the last address handed out *)
  supply : list bool;     (* outcome of the coming malloc calls *)
  junk : N → Node         (* what a fresh cell at an address holds *)
}.

(** [malloc]: the next answer of the allocator decides.  An allocator that
    has run out of answers has run out of memory.  The contents of a fresh
    cell are indeterminate in C: they are whatever [junk] says. *)
Definition malloc (h : Heap) : ptr * Heap :=
  match supply h with
  | true :: s =>
      let p := N.succ (brk h) in
      (p, mkHeap (<[p := junk h p]> (cells h)) p s (junk h))
  | false :: s => (NULL, mkHeap (cells h) (brk h) s (junk h))
  | [] => (NULL, h)
  end.

Definition with_cells (f : gmap N Node → gmap N Node) (h : Heap) : Heap :=
  mkHeap (f (cells h)) (brk h) (supply h) (junk h).

(** [p->data = v] *)
Definition set_data (p : ptr) (v : Z) : Heap → Heap :=
  with_cells (alter (λ n, mkNode v (leftChild n) (rightChild n)) p).

(** [p->leftChild = q] *)
Definition set_leftChild (p q : ptr) : Heap → Heap :=
  with_cells (alter (λ n, mkNode (data n) q (rightChild n)) p).

(** [p->rightChild = q] *)
Definition set_rightChild (p q : ptr) : Heap → Heap :=
  with_cells (alter (λ n, mkNode (data n) (leftChild n) q) p).

(** ** Tree.c: TreeCreate *)

(** [Node *TreeCreate(int level, const char *data)].  The recursion is on
    [level], which the callers pass non-negative; [1 << (level - 1)] is
    [2 ^ (level - 1)].  That is what the code computes as long as the shift
    stays inside a 32-bit [int], that is for [level <= 31]; for larger
    levels the shift of the code overflows and this definition does not say
    what the code reads.  The theorems that speak of the data read for every
    level carry [level <= 31] as a hypothesis; the others use levels 1, 2
    and 6 or do not depend on the offsets. *)
Fixpoint TreeCreate (level : nat) (d : cptr) (h : Heap) : ptr * Heap :=
  let '(tree, h) := malloc h in
  if (tree =? NULL)%N then (NULL, h)
  else
    let h := set_data tree (deref d) h in
    match level with
    | O =>
        let h := set_leftChild tree NULL h in
        let h := set_rightChild tree NULL h in
        (tree, h)
    | S level' =>
        let '(l, h) := TreeCreate level' (padd d 1) h in
        let h := set_leftChild tree l h in
        let '(r, h) := TreeCreate level' (padd d (Nat.shiftl 1 level')) h in
        let h := set_rightChild tree r h in
        (tree, h)
    end.

(** *** Reading a tree back from the heap *)

Inductive BinTree :=
| Empty
| Fork (c : Z) (l r : BinTree).

(** The tree below [p], followed for at most [depth] levels. *)
Fixpoint tree_at (depth : nat) (m : gmap N Node) (p : ptr) : BinTree :=
  match depth with
  | O => Empty
  | S depth' =>
      if (p =? NULL)%N then Empty
      else match m !! p with
           | Some n =>
               Fork (data n) (tree_at depth' m (leftChild n))
                    (tree_at depth' m (rightChild n))
           | None => Empty
           end
  end.

(** Top-down, left-to-right: the node, its left subtree, its right subtree. *)
Fixpoint serialize (t : BinTree) : list Z :=
  match t with
  | Empty => []
  | Fork c l r => c :: serialize l ++ serialize r
  end.

(** A heap with nothing allocated, whose allocator answers [s] and whose
    fresh cells hold [j]. *)
Definition empty_heap (s : list bool) (j : N → Node) : Heap := mkHeap ∅ 0%N s j.

Definition zeros : nat → Z := λ _, 0.

(** ** Morse.c: the decoder *)

(** The globals [chartree] and [temp], and the heap they point into. *)
Record Decoder := mkDecoder {
  heap : Heap;
  chartree : ptr;
  temp : ptr
}.

(** ['\0'], which fills the places of the table that stand for no
    character. *)
Definition NUL : Z := 0.

Definition chr (a : ascii) : Z := Z.of_N (N_of_ascii a).
Arguments chr a%_char.

(** The initializer of [char tree[63]] in [MorseInit]. *)
Definition morse_table : list Z :=
  [NUL; chr "E"; chr "I"; chr "S"; chr "H"; chr "5"; chr "4"; chr "V"; NUL;
   chr "3"; chr "U"; chr "F"; NUL; NUL; NUL; NUL; chr "2";
   chr "A"; chr "R"; chr "L"; NUL; NUL; NUL; NUL; NUL; chr "W"; chr "P"; NUL;
   NUL; chr "J"; NUL; chr "1";
   chr "T"; chr "N"; chr "D"; chr "B"; chr "6"; NUL; chr "X"; NUL; NUL;
   chr "K"; chr "C"; NUL; NUL; chr "Y"; NUL; NUL;
   chr "M"; chr "G"; chr "Z"; chr "7"; NUL; chr "Q"; NUL; NUL; chr "O"; NUL;
   chr "8"; NUL; NUL; chr "9"; chr "0"].

Definition set_temp (p : ptr) (s : Decoder) : Decoder :=
  mkDecoder (heap s) (chartree s) p.

Section Morse.
Context `{Headers}.

(** [int MorseInit(void)].  [ButtonsInit()] touches none of the state kept
    here.  [past] is what the stack holds behind the local array. *)
Definition MorseInit (past : nat → Z) (s : Decoder) : Z * Decoder :=
  let tree := array morse_table past in
  let '(p, h) := TreeCreate 6 tree (heap s) in
  if (p =? NULL)%N then (STANDARD_ERROR, mkDecoder h p (temp s))
  else (SUCCESS, mkDecoder h p p).

(** [char MorseDecode(MorseChar in)].  The result is [None] when the call
    dereferences a [temp] that points at no node, which C leaves
    undefined. *)
Definition MorseDecode (inp : Z) (s : Decoder) : option (Z * Decoder) :=
  if inp =? MORSE_CHAR_DOT then
    n ← cells (heap s) !! temp s;
    if (leftChild n =? NULL)%N then Some (to_char STANDARD_ERROR, s)
    else Some (to_char SUCCESS, set_temp (leftChild n) s)
  else if inp =? MORSE_CHAR_DASH then
    n ← cells (heap s) !! temp s;
    if (rightChild n =? NULL)%N then Some (to_char STANDARD_ERROR, s)
    else Some (to_char SUCCESS, set_temp (rightChild n) s)
  else if inp =? MORSE_CHAR_END_OF_CHAR then
    n ← cells (heap s) !! temp s;
    Some (data n, set_temp (chartree s) s)
  else if inp =? MORSE_CHAR_DECODE_RESET then
    Some (to_char SUCCESS, set_temp (chartree s) s)
  else Some (to_char STANDARD_ERROR, s).

(** A sequence of calls of [MorseDecode], with the values they return. *)
Fixpoint decode_all (inps : list Z) (s : Decoder) : option (list Z * Decoder) :=
  match inps with
  | [] => Some ([], s)
  | i :: inps =>
      '(c, s) ← MorseDecode i s;
      '(cs, s) ← decode_all inps s;
      Some (c :: cs, s)
  end.

End Morse.

(** ** Morse.c: the event detector *)

(** The anonymous enumeration of which [Mstate] is a variable. *)
Inductive MorseState := WAITING | DOT | DASH | INTER_LETTER.

(** [MorseEvent] of [Morse.h]. *)
Inductive MorseEvent :=
| MORSE_EVENT_NONE
| MORSE_EVENT_DOT
| MORSE_EVENT_DASH
| MORSE_EVENT_INTER_LETTER
| MORSE_EVENT_INTER_WORD.

(** The globals [Mstate], [first] and [increment]. *)
Record Detector := mkDetector {
  Mstate : MorseState;
  first : Z;
  increment : Z
}.

Definition detector_init : Detector := mkDetector WAITING 0 0.

Section Events.
Context `{Headers}.

(** [MorseEvent MorseCheckEvents(void)]; [buttons] is what this call's
    [ButtonsCheckEvents()] returns.  The [printf] calls are left out. *)
Definition MorseCheckEvents (buttons : Z) (s : Detector) : MorseEvent * Detector :=
  let increment := to_int (increment s + 1) in
  let first := to_uint8 buttons in
  match Mstate s with
  | WAITING =>
      let increment := 0 in
      if first =? BUTTON_EVENT_4DOWN
      then (MORSE_EVENT_NONE, mkDetector DOT first increment)
      else (MORSE_EVENT_NONE, mkDetector WAITING first increment)
  | DOT =>
      if first =? BUTTON_EVENT_4UP
      then (MORSE_EVENT_DOT, mkDetector INTER_LETTER first 0)
      else if increment >? MORSE_EVENT_LENGTH_DOWN_DASH
      then (MORSE_EVENT_NONE, mkDetector DASH first increment)
      else (MORSE_EVENT_NONE, mkDetector DOT first increment)
  | DASH =>
      if first =? BUTTON_EVENT_4UP
      then (MORSE_EVENT_DASH, mkDetector INTER_LETTER first 0)
      else (MORSE_EVENT_NONE, mkDetector DASH first increment)
  | INTER_LETTER =>
      if increment >=? MORSE_EVENT_LENGTH_UP_INTER_LETTER
      then (MORSE_EVENT_INTER_WORD, mkDetector WAITING first increment)
      else if first =? BUTTON_EVENT_4DOWN
      then
        if increment >=? MORSE_EVENT_LENGTH_UP_INTER_LETTER
        then (MORSE_EVENT_INTER_LETTER, mkDetector DOT first 0)
        else (MORSE_EVENT_NONE, mkDetector DOT first 0)
      else (MORSE_EVENT_NONE, mkDetector INTER_LETTER first increment)
  end.

(** One call per tick: the events returned, in order, and the state left. *)
Fixpoint ticks (bs : list Z) (s : Detector) : list MorseEvent * Detector :=
  match bs with
  | [] => ([], s)
  | b :: bs =>
      let '(e, s) := MorseCheckEvents b s in
      let '(es, s) := ticks bs s in
      (e :: es, s)
  end.

End Events.

(** ** Heaps and trees: the invariants *)

(** The addresses handed out between two heaps. *)
Definition fresh_in (h h' : Heap) (p : ptr) : Prop := (brk h < p ≤ brk h')%N.

Definition new_or_null (h h' : Heap) (p : ptr) : Prop :=
  p = NULL ∨ fresh_in h h' p.

(** [h'] is [h] with more cells: the cells of [h] are as they were, and each
    new cell holds a node whose children are new cells or [NULL]. *)
Record extends (h h' : Heap) : Prop := {
  ext_brk : (brk h ≤ brk h')%N;
  ext_frame : ∀ q, ¬ fresh_in h h' q → cells h' !! q = cells h !! q;
  ext_new : ∀ q, fresh_in h h' q →
    ∃ n, cells h' !! q = Some n ∧
         new_or_null h h' (leftChild n) ∧ new_or_null h h' (rightChild n)
}.

Definition child_ok (m : gmap N Node) (q : ptr) : Prop :=
  q = NULL ∨ is_Some (m !! q).

(** Nothing lives at [NULL] or above the last address handed out, and the
    child pointers of every node are [NULL] or point at nodes. *)
Record heap_wf (h : Heap) : Prop := {
  wf_null : cells h !! NULL = None;
  wf_dom : ∀ q, is_Some (cells h !! q) → (q ≤ brk h)%N;
  wf_closed : ∀ q n, cells h !! q = Some n →
    child_ok (cells h) (leftChild n) ∧ child_ok (cells h) (rightChild n)
}.

(** The nodes of the tree below [root]: the root, and the children that the
    nodes of the tree point at. *)
Inductive in_tree (m : gmap N Node) (root : ptr) : ptr → Prop :=
| in_tree_root :
    root ≠ NULL → is_Some (m !! root) → in_tree m root root
| in_tree_left p n :
    in_tree m root p → m !! p = Some n → leftChild n ≠ NULL →
    in_tree m root (leftChild n)
| in_tree_right p n :
    in_tree m root p → m !! p = Some n → rightChild n ≠ NULL →
    in_tree m root (rightChild n).

(** The decoder after a successful [MorseInit]. *)
Definition decoder_ok (s : Decoder) : Prop :=
  heap_wf (heap s) ∧ in_tree (cells (heap s)) (chartree s) (temp s).

(** What [TreeCreate level data] builds when no allocation fails, read off
    its recursion: the node holds [*data], the left subtree comes from
    [data + 1] and the right one from [data + (1 << (level - 1))].  As for
    [TreeCreate], this is the tree of the code for [level <= 31]. *)
Fixpoint built (level : nat) (d : cptr) : BinTree :=
  match level with
  | O => Fork (deref d) Empty Empty
  | S level' =>
      Fork (deref d) (built level' (padd d 1))
           (built level' (padd d (Nat.shiftl 1 level')))
  end.

(** The number of [malloc] calls of [TreeCreate level data] when none of
    them fails: [2 ^ (level + 1) - 1]. *)
Fixpoint nodes (level : nat) : nat :=
  match level with
  | O => 1
  | S level' => S (nodes level' + nodes level')
  end.

(** ** Concrete inputs *)

(** Fresh cells that hold neither zeros nor valid pointers. *)
Definition garbage : N → Node := λ p, mkNode 85 (p + 7)%N 3%N.

(** A decoder before [MorseInit], on an empty heap with room for the 127
    nodes that [TreeCreate(6, tree)] asks for. *)
Definition unbooted : Decoder :=
  mkDecoder (empty_heap (replicate 127 true) garbage) NULL NULL.

(** The decoder after [MorseInit] there. *)
Definition booted : Decoder :=
  (MorseInit (H := lab8_headers) zeros unbooted).2.

(** The root of the Morse tree as [MorseInit] leaves it in [booted]. *)
Definition booted_root : Node := mkNode NUL 2%N 65%N.

(** The decoder of [booted] with the cursor on the node that six dots lead
    to, and that node. *)
Definition booted_leaf : Decoder := set_temp 7%N booted.

Definition booted_leaf_node : Node := mkNode (chr "4") NULL NULL.

(** The bytes of "ABC", and a heap on which the second of three
    allocations fails. *)
Definition abc : cptr := array [chr "A"; chr "B"; chr "C"] zeros.

Definition tight_heap : Heap := empty_heap [true; false; true] garbage.

(** Ticks that return no event. *)
Definition no_events (n : nat) : list MorseEvent :=
  replicate n MORSE_EVENT_NONE.

(** ** Trees, paths and Morse codes *)

(** The cells of [m] below [p] hold the tree [t], down to [NULL] pointers on
    every branch. *)
Inductive represents (m : gmap N Node) : ptr → BinTree → Prop :=
| represents_NULL : represents m NULL Empty
| represents_node p n l r :
    p ≠ NULL → m !! p = Some n →
    represents m (leftChild n) l → represents m (rightChild n) r →
    represents m p (Fork (data n) l r).

Fixpoint height (t : BinTree) : nat :=
  match t with
  | Empty => 0
  | Fork _ l r => S (height l `max` height r)
  end.

(** The subtree found by going left at each [false] and right at each
    [true]. *)
Fixpoint subtree (t : BinTree) (path : list bool) {struct path} : BinTree :=
  match path with
  | [] => t
  | b :: path =>
      match t with
      | Empty => Empty
      | Fork _ l r => subtree (if b then r else l) path
      end
  end.

(** The payload of the root of a tree. *)
Definition payload (t : BinTree) : option Z :=
  match t with
  | Empty => None
  | Fork c _ _ => Some c
  end.

(** The [MorseChar] of a step of a path: a dot goes left, a dash right. *)
Definition symbol `{Headers} (dash : bool) : Z :=
  if dash then MORSE_CHAR_DASH else MORSE_CHAR_DOT.

(** What is fed to the decoder to key one character, and what the decoder
    answers when every step succeeds and the character comes out. *)
Definition keyed `{Headers} (cp : Z * list bool) : list Z :=
  (symbol <$> cp.2) ++ [MORSE_CHAR_END_OF_CHAR].

Definition answered `{Headers} (cp : Z * list bool) : list Z :=
  replicate (length cp.2) (to_char SUCCESS) ++ [cp.1].

(** A code written with ['.'] and ['-'] as a path. *)
Fixpoint path_of (s : String.string) : list bool :=
  match s with
  | String.EmptyString => []
  | String.String a s => (if Ascii.eqb a "-" then true else false) :: path_of s
  end.
Arguments path_of s%_string_scope.

(** International Morse code for the letters and the digits. *)
Definition morse_code : list (Z * list bool) :=
  [(chr "A", path_of ".-");    (chr "B", path_of "-...");
   (chr "C", path_of "-.-.");  (chr "D", path_of "-..");
   (chr "E", path_of ".");     (chr "F", path_of "..-.");
   (chr "G", path_of "--.");   (chr "H", path_of "....");
   (chr "I", path_of "..");    (chr "J", path_of ".---");
   (chr "K", path_of "-.-");   (chr "L", path_of ".-..");
   (chr "M", path_of "--");    (chr "N", path_of "-.");
   (chr "O", path_of "---");   (chr "P", path_of ".--.");
   (chr "Q", path_of "--.-");  (chr "R", path_of ".-.");
   (chr "S", path_of "...");   (chr "T", path_of "-");
   (chr "U", path_of "..-");   (chr "V", path_of "...-");
   (chr "W", path_of ".--");   (chr "X", path_of "-..-");
   (chr "Y", path_of "-.--");  (chr "Z", path_of "--..");
   (chr "0", path_of "-----"); (chr "1", path_of ".----");
   (chr "2", path_of "..---"); (chr "3", path_of "...--");
   (chr "4", path_of "....-"); (chr "5", path_of ".....");
   (chr "6", path_of "-...."); (chr "7", path_of "--...");
   (chr "8", path_of "---.."); (chr "9", path_of "----.")].

(** Whether every [MORSE_EVENT_INTER_WORD] of a run comes after a dot or a
    dash with nothing but [MORSE_EVENT_NONE] in between; [after_symbol] says
    whether the run starts that way. *)
Fixpoint words_follow_symbols (after_symbol : bool) (es : list MorseEvent)
  : bool :=
  match es with
  | [] => true
  | MORSE_EVENT_NONE :: es => words_follow_symbols after_symbol es
  | MORSE_EVENT_DOT :: es | MORSE_EVENT_DASH :: es =>
      words_follow_symbols true es
  | MORSE_EVENT_INTER_WORD :: es =>
      after_symbol && words_follow_symbols false es
  | MORSE_EVENT_INTER_LETTER :: es => words_follow_symbols false es
  end.

(** * Properties *)

(** ** The decoder, one call at a time *)

Section DecoderSteps.
Context `{Headers}.

Lemma MorseDecode_dot s n :
  cells (heap s) !! temp s = Some n →
  MorseDecode MORSE_CHAR_DOT s =
    Some (if (leftChild n =? NULL)%N then (to_char STANDARD_ERROR, s)
          else (to_char SUCCESS, set_temp (leftChild n) s)).
Proof.
  intros Hn. unfold MorseDecode. rewrite Z.eqb_refl, Hn. simpl.
  by destruct (leftChild n =? NULL)%N.
Qed.

Lemma MorseDecode_dash s n :
  MORSE_CHAR_DASH ≠ MORSE_CHAR_DOT →
  cells (heap s) !! temp s = Some n →
  MorseDecode MORSE_CHAR_DASH s =
    Some (if (rightChild n =? NULL)%N then (to_char STANDARD_ERROR, s)
          else (to_char SUCCESS, set_temp (rightChild n) s)).
Proof.
  intros Hne Hn. unfold MorseDecode.
  apply Z.eqb_neq in Hne. rewrite Hne, Z.eqb_refl, Hn. simpl.
  by destruct (rightChild n =? NULL)%N.
Qed.

Lemma MorseDecode_end_of_char s n :
  MORSE_CHAR_END_OF_CHAR ≠ MORSE_CHAR_DOT →
  MORSE_CHAR_END_OF_CHAR ≠ MORSE_CHAR_DASH →
  cells (heap s) !! temp s = Some n →
  MorseDecode MORSE_CHAR_END_OF_CHAR s = Some (data n, set_temp (chartree s) s).
Proof.
  intros Hdot Hdash Hn. unfold MorseDecode.
  apply Z.eqb_neq in Hdot, Hdash. by rewrite Hdot, Hdash, Z.eqb_refl, Hn.
Qed.

Lemma MorseDecode_other inp s :
  inp ≠ MORSE_CHAR_DOT → inp ≠ MORSE_CHAR_DASH →
  inp ≠ MORSE_CHAR_END_OF_CHAR → inp ≠ MORSE_CHAR_DECODE_RESET →
  MorseDecode inp s = Some (to_char STANDARD_ERROR, s).
Proof.
  intros H1 H2 H3 H4. unfold MorseDecode.
  apply Z.eqb_neq in H1, H2, H3, H4. by rewrite H1, H2, H3, H4.
Qed.

(** C7.  With the cursor on a node [n]: a dot when [n] has no left child
    returns [STANDARD_ERROR] and leaves the whole decoder state, the cursor
    included, as it was; a dot when [n] has a left child returns [SUCCESS]
    and leaves a state whose cursor is that child, with the heap and the
    root as they were; a dash does the same through the right child. *)
Theorem C7_dot_dash_step s n :
  MORSE_CHAR_DASH ≠ MORSE_CHAR_DOT →
  cells (heap s) !! temp s = Some n →
  (leftChild n = NULL →
     MorseDecode MORSE_CHAR_DOT s = Some (to_char STANDARD_ERROR, s)) ∧
  (leftChild n ≠ NULL →
     ∃ s', MorseDecode MORSE_CHAR_DOT s = Some (to_char SUCCESS, s') ∧
           temp s' = leftChild n ∧
           heap s' = heap s ∧ chartree s' = chartree s) ∧
  (rightChild n = NULL →
     MorseDecode MORSE_CHAR_DASH s = Some (to_char STANDARD_ERROR, s)) ∧
  (rightChild n ≠ NULL →
     ∃ s', MorseDecode MORSE_CHAR_DASH s = Some (to_char SUCCESS, s') ∧
           temp s' = rightChild n ∧
           heap s' = heap s ∧ chartree s' = chartree s).
Proof.
  intros Hne Hn.
  rewrite (MorseDecode_dot s n Hn), (MorseDecode_dash s n Hne Hn).
  repeat split; intros Hc.
  - by rewrite Hc.
  - apply N.eqb_neq in Hc. rewrite Hc. by eexists.
  - by rewrite Hc.
  - apply N.eqb_neq in Hc. rewrite Hc. by eexists.
Qed.

(** C6.  Where [(char) STANDARD_ERROR] is ['\0'], the filler of the table:
    an end-of-character with the cursor on a node that holds the filler
    returns [STANDARD_ERROR], and with the cursor on a node that holds a
    character returns that character, which is not [STANDARD_ERROR]; both
    put the cursor back on the root. *)
Theorem C6_end_of_char s n :
  MORSE_CHAR_END_OF_CHAR ≠ MORSE_CHAR_DOT →
  MORSE_CHAR_END_OF_CHAR ≠ MORSE_CHAR_DASH →
  to_char STANDARD_ERROR = NUL →
  cells (heap s) !! temp s = Some n →
  (data n = NUL →
     MorseDecode MORSE_CHAR_END_OF_CHAR s =
       Some (to_char STANDARD_ERROR, set_temp (chartree s) s)) ∧
  (data n ≠ NUL →
     MorseDecode MORSE_CHAR_END_OF_CHAR s =
       Some (data n, set_temp (chartree s) s) ∧
     data n ≠ to_char STANDARD_ERROR) ∧
  temp (set_temp (chartree s) s) = chartree s.
Proof.
  intros Hdot Hdash Herr Hn.
  rewrite (MorseDecode_end_of_char s n Hdot Hdash Hn), Herr.
  repeat split; try done. intros ->. done.
Qed.

End DecoderSteps.

(** ** The event detector *)

Section DetectorSteps.
Context `{Headers}.

Lemma ticks_app bs1 bs2 s :
  ticks (bs1 ++ bs2) s =
    let '(es1, s1) := ticks bs1 s in
    let '(es2, s2) := ticks bs2 s1 in
    (es1 ++ es2, s2).
Proof.
  revert s. induction bs1 as [|b bs1 IH]; intros s; simpl.
  - by destruct (ticks bs2 s).
  - destruct (MorseCheckEvents b s) as [e s']. rewrite IH.
    destruct (ticks bs1 s') as [es1 s1]. by destruct (ticks bs2 s1).
Qed.

(** What a call returns and the state it leaves do not depend on the button
    events of the call before: [first] is overwritten before it is read. *)
Lemma MorseCheckEvents_first b s v :
  MorseCheckEvents b (mkDetector (Mstate s) v (increment s)) =
  MorseCheckEvents b s.
Proof. done. Qed.

Lemma MorseCheckEvents_waiting b s :
  Mstate s = WAITING →
  MorseCheckEvents b s =
    (MORSE_EVENT_NONE,
     mkDetector (if to_uint8 b =? BUTTON_EVENT_4DOWN then DOT else WAITING)
                (to_uint8 b) 0).
Proof.
  intros Hs. unfold MorseCheckEvents. rewrite Hs.
  by destruct (to_uint8 b =? BUTTON_EVENT_4DOWN).
Qed.

Lemma MorseCheckEvents_dash_held b s :
  Mstate s = DASH → to_uint8 b ≠ BUTTON_EVENT_4UP →
  MorseCheckEvents b s =
    (MORSE_EVENT_NONE, mkDetector DASH (to_uint8 b) (to_int (increment s + 1))).
Proof.
  intros Hs Hb. unfold MorseCheckEvents. apply Z.eqb_neq in Hb.
  by rewrite Hs, Hb.
Qed.

Lemma MorseCheckEvents_dash_released b s :
  Mstate s = DASH → to_uint8 b = BUTTON_EVENT_4UP →
  MorseCheckEvents b s =
    (MORSE_EVENT_DASH, mkDetector INTER_LETTER (to_uint8 b) 0).
Proof.
  intros Hs Hb. unfold MorseCheckEvents. apply Z.eqb_eq in Hb.
  by rewrite Hs, Hb.
Qed.

(** In [INTER_LETTER] the first test alone decides whether the call returns
    [MORSE_EVENT_INTER_WORD], and it compares the counter with
    [MORSE_EVENT_LENGTH_UP_INTER_LETTER]. *)
Lemma MorseCheckEvents_inter_letter_gap b s :
  Mstate s = INTER_LETTER →
  MORSE_EVENT_LENGTH_UP_INTER_LETTER ≤ to_int (increment s + 1) →
  MorseCheckEvents b s =
    (MORSE_EVENT_INTER_WORD,
     mkDetector WAITING (to_uint8 b) (to_int (increment s + 1))).
Proof.
  intros Hs Hge. unfold MorseCheckEvents. rewrite Hs.
  apply Z.geb_le in Hge. by rewrite Hge.
Qed.

Lemma MorseCheckEvents_inter_letter_short b s :
  Mstate s = INTER_LETTER →
  to_int (increment s + 1) < MORSE_EVENT_LENGTH_UP_INTER_LETTER →
  MorseCheckEvents b s =
    (MORSE_EVENT_NONE,
     if to_uint8 b =? BUTTON_EVENT_4DOWN
     then mkDetector DOT (to_uint8 b) 0
     else mkDetector INTER_LETTER (to_uint8 b) (to_int (increment s + 1))).
Proof.
  intros Hs Hlt. unfold MorseCheckEvents. rewrite Hs.
  assert ((to_int (increment s + 1) >=? MORSE_EVENT_LENGTH_UP_INTER_LETTER)
          = false) as ->.
  { rewrite Z.geb_leb. apply Z.leb_gt. lia. }
  by destruct (to_uint8 b =? BUTTON_EVENT_4DOWN).
Qed.

(** No call returns [MORSE_EVENT_INTER_LETTER]: the branch that would is
    guarded by the test that has just failed. *)
Lemma MorseCheckEvents_never_inter_letter b s :
  (MorseCheckEvents b s).1 ≠ MORSE_EVENT_INTER_LETTER.
Proof.
  unfold MorseCheckEvents. destruct (Mstate s); simpl.
  - by destruct (_ =? _).
  - destruct (_ =? _); [done|]. by destruct (_ >? _).
  - by destruct (_ =? _).
  - destruct (_ >=? _) eqn:Hge; [done|].
    by destruct (_ =? _).
Qed.

Lemma ticks_dash_held bs s :
  Mstate s = DASH →
  Forall (λ b, to_uint8 b ≠ BUTTON_EVENT_4UP) bs →
  ∃ s', ticks bs s = (replicate (length bs) MORSE_EVENT_NONE, s') ∧
        Mstate s' = DASH.
Proof.
  intros Hs Hbs. revert s Hs.
  induction Hbs as [|b bs Hb _ IH]; intros s Hs; simpl.
  - by exists s.
  - rewrite (MorseCheckEvents_dash_held b s Hs Hb).
    destruct (IH (mkDetector DASH (to_uint8 b) (to_int (increment s + 1))))
      as (s' & -> & Hs'); [done|].
    by exists s'.
Qed.

(** C9.  In [INTER_LETTER], on a tick whose counter reaches the threshold of
    the inter-word test and whose button event is the press: the call returns
    [MORSE_EVENT_INTER_WORD] and leaves [WAITING], exactly as it does for any
    other button event on that tick; the press starts no [DOT], and the calls
    that follow do not look at it again: they behave as after any other
    button event, and a next tick without a press stays in [WAITING]. *)
Theorem C9_inter_word_before_press b s :
  Mstate s = INTER_LETTER →
  MORSE_EVENT_LENGTH_UP_INTER_LETTER ≤ to_int (increment s + 1) →
  to_uint8 b = BUTTON_EVENT_4DOWN →
  ∃ s',
    MorseCheckEvents b s = (MORSE_EVENT_INTER_WORD, s') ∧
    Mstate s' = WAITING ∧
    (∀ b0, (MorseCheckEvents b0 s).1 = MORSE_EVENT_INTER_WORD ∧
           Mstate (MorseCheckEvents b0 s).2 = Mstate s' ∧
           increment (MorseCheckEvents b0 s).2 = increment s') ∧
    (∀ b' v, MorseCheckEvents b' s' =
             MorseCheckEvents b' (mkDetector (Mstate s') v (increment s'))) ∧
    (∀ b', to_uint8 b' ≠ BUTTON_EVENT_4DOWN →
           MorseCheckEvents b' s' =
             (MORSE_EVENT_NONE, mkDetector WAITING (to_uint8 b') 0)).
Proof.
  intros Hs Hge Hb. eexists. split; [|split; [|split; [|split]]].
  - by apply MorseCheckEvents_inter_letter_gap.
  - done.
  - intros b0. by rewrite (MorseCheckEvents_inter_letter_gap b0 s Hs Hge).
  - intros b' v. by rewrite MorseCheckEvents_first.
  - intros b' Hb'. rewrite MorseCheckEvents_waiting by done.
    apply Z.eqb_neq in Hb'. by rewrite Hb'.
Qed.

(** C10.  From [DASH], any number of ticks without the release all return
    [MORSE_EVENT_NONE] and stay in [DASH]; the tick of the release returns
    [MORSE_EVENT_DASH], the only event of the whole run, and leaves
    [INTER_LETTER] with the counter at 0. *)
Theorem C10_dash_until_release bs b s :
  Mstate s = DASH →
  Forall (λ x, to_uint8 x ≠ BUTTON_EVENT_4UP) bs →
  to_uint8 b = BUTTON_EVENT_4UP →
  (∃ s', ticks bs s = (replicate (length bs) MORSE_EVENT_NONE, s') ∧
         Mstate s' = DASH) ∧
  ticks (bs ++ [b]) s =
    (replicate (length bs) MORSE_EVENT_NONE ++ [MORSE_EVENT_DASH],
     mkDetector INTER_LETTER (to_uint8 b) 0).
Proof.
  intros Hs Hbs Hb.
  destruct (ticks_dash_held bs s Hs Hbs) as (s' & Hrun & Hs').
  split; [by exists s'|].
  rewrite ticks_app, Hrun. simpl.
  by rewrite (MorseCheckEvents_dash_released b s' Hs' Hb).
Qed.

End DetectorSteps.

(** ** The heap that TreeCreate leaves *)

Lemma malloc_inv h p h' :
  malloc h = (p, h') →
  (p = NULL ∧ cells h' = cells h ∧ brk h' = brk h) ∨
  (p = N.succ (brk h) ∧ brk h' = p ∧
   cells h' = <[p := junk h p]> (cells h)).
Proof.
  unfold malloc. destruct (supply h) as [|[] s]; intros [= <- <-]; auto.
Qed.

Lemma malloc_true h s :
  supply h = true :: s →
  malloc h =
    (N.succ (brk h),
     mkHeap (<[N.succ (brk h) := junk h (N.succ (brk h))]> (cells h))
            (N.succ (brk h)) s (junk h)).
Proof. intros Hs. unfold malloc. by rewrite Hs. Qed.

Lemma succ_not_NULL (p : N) : (N.succ p =? NULL)%N = false.
Proof. apply N.eqb_neq. unfold NULL. lia. Qed.

Lemma malloc_succeeds_iff h :
  (malloc h).1 ≠ NULL ↔ head (supply h) = Some true.
Proof.
  unfold malloc. destruct (supply h) as [|[] s]; simpl; split; try done.
  intros _. unfold NULL. lia.
Qed.

Lemma extends_refl_cells h h' :
  cells h' = cells h → brk h' = brk h → extends h h'.
Proof.
  intros Hc Hb. split.
  - lia.
  - intros q _. by rewrite Hc.
  - intros q Hq. unfold fresh_in in Hq. lia.
Qed.

Lemma new_or_null_mono h0 h1 h h' p :
  (brk h ≤ brk h0)%N → (brk h1 ≤ brk h')%N →
  new_or_null h0 h1 p → new_or_null h h' p.
Proof.
  unfold new_or_null, fresh_in. intros ?? [->|?]; [by left|right; lia].
Qed.

(** The cells once the node at [tree] and the two subtrees below it are in
    place: the node holds what the three assignments gave it, whatever the
    fresh cell held. *)
Lemma fork_cells h h0 h1 h2 tree v l r :
  tree = N.succ (brk h) → brk h0 = tree →
  cells h0 = <[tree := junk h tree]> (cells h) →
  extends (set_data tree v h0) h1 →
  extends (set_leftChild tree l h1) h2 →
  ∀ q, cells (set_rightChild tree r h2) !! q =
    if decide (q = tree) then Some (mkNode v l r)
    else if decide (fresh_in h1 h2 q) then cells h2 !! q
    else if decide (fresh_in h0 h1 q) then cells h1 !! q
    else cells h !! q.
Proof.
  intros Ht Hb0 Hc0 [Hb1 Hf1 _] [Hb2 Hf2 _] q. unfold fresh_in in *.
  simpl in *. case_decide as Hqt.
  - subst q. rewrite lookup_alter_eq.
    rewrite Hf2 by lia. rewrite lookup_alter_eq.
    rewrite Hf1 by lia. by rewrite lookup_alter_eq, Hc0, lookup_insert_eq.
  - rewrite lookup_alter_ne by done. case_decide as Hq2; [done|].
    rewrite Hf2 by done. rewrite lookup_alter_ne by done.
    case_decide as Hq1; [done|].
    rewrite Hf1 by done. by rewrite lookup_alter_ne, Hc0, lookup_insert_ne.
Qed.

Lemma TreeCreate_extends level : ∀ d h p h',
  TreeCreate level d h = (p, h') → extends h h' ∧ new_or_null h h' p.
Proof.
  induction level as [|level IH]; intros d h p h'; simpl;
    destruct (malloc h) as [tree h0] eqn:Hm;
    apply malloc_inv in Hm as [(-> & Hc0 & Hb0)|(Ht & Hb0 & Hc0)].
  - simpl. intros [= <- <-]. split; [by apply extends_refl_cells|by left].
  - assert ((tree =? NULL)%N = false) as ->
      by (apply N.eqb_neq; unfold NULL; lia).
    intros [= <- <-]. split; [split|]; simpl.
    + lia.
    + intros q Hq. unfold fresh_in in Hq. simpl in Hq.
      assert (tree ≠ q) by lia.
      rewrite !lookup_alter_ne, Hc0, lookup_insert_ne by done. done.
    + intros q Hq. unfold fresh_in in Hq. simpl in Hq.
      assert (q = tree) as -> by lia.
      rewrite !lookup_alter_eq, Hc0, lookup_insert_eq. simpl.
      eexists; split; [done|]. split; by left.
    + right. unfold fresh_in. simpl. lia.
  - simpl. intros [= <- <-]. split; [by apply extends_refl_cells|by left].
  - assert ((tree =? NULL)%N = false) as ->
      by (apply N.eqb_neq; unfold NULL; lia).
    destruct (TreeCreate level (padd d 1) _) as [l h1] eqn:Hl.
    destruct (TreeCreate level (padd d (Nat.shiftl 1 level)) _)
      as [r h2] eqn:Hr.
    intros [= <- <-].
    apply IH in Hl as [Hext1 Hl]. apply IH in Hr as [Hext2 Hr].
    pose proof (fork_cells h h0 h1 h2 tree (deref d) l r Ht Hb0 Hc0
                  Hext1 Hext2) as Hcells.
    destruct Hext1 as [Hb1 _ Hn1]. destruct Hext2 as [Hb2 _ Hn2].
    unfold fresh_in in *. simpl in *.
    split; [split|]; simpl.
    + lia.
    + intros q Hq. unfold fresh_in in Hq. simpl in Hq. rewrite Hcells.
      repeat case_decide; try done; lia.
    + intros q Hq. unfold fresh_in in Hq. simpl in Hq. rewrite Hcells.
      case_decide as Hqt; [|case_decide as Hq2].
      * eexists; split; [done|]. simpl. split.
        -- eapply new_or_null_mono; [| |exact Hl]; simpl; lia.
        -- eapply new_or_null_mono; [| |exact Hr]; simpl; lia.
      * destruct (Hn2 q Hq2) as (n & Hn & Hnl & Hnr).
        exists n. split; [done|].
        split; (eapply new_or_null_mono; [| |eassumption]; simpl; lia).
      * assert (brk h0 < q ≤ brk h1)%N as Hq1 by lia.
        rewrite decide_True by done.
        destruct (Hn1 q Hq1) as (n & Hn & Hnl & Hnr).
        exists n. split; [done|].
        split; (eapply new_or_null_mono; [| |eassumption]; simpl; lia).
    + right. unfold fresh_in. simpl. lia.
Qed.

Lemma extends_wf h h' : heap_wf h → extends h h' → heap_wf h'.
Proof.
  intros [Hnull Hdom Hcl] [Hb Hf Hn].
  assert (∀ q, is_Some (cells h !! q) → is_Some (cells h' !! q)) as Hkeep.
  { intros q Hq. rewrite Hf; [done|].
    apply Hdom in Hq. unfold fresh_in. lia. }
  assert (∀ q, new_or_null h h' q → child_ok (cells h') q) as Hnew.
  { intros q [->|Hq]; [by left|right].
    destruct (Hn q Hq) as (n & -> & _). by eexists. }
  split.
  - rewrite Hf; [done|]. unfold fresh_in, NULL. lia.
  - intros q Hq. destruct (decide (fresh_in h h' q)) as [Hfr|Hfr].
    + unfold fresh_in in Hfr. lia.
    + rewrite Hf in Hq by done. apply Hdom in Hq. lia.
  - intros q n Hq. destruct (decide (fresh_in h h' q)) as [Hfr|Hfr].
    + destruct (Hn q Hfr) as (n' & Hn' & Hl & Hr).
      assert (n' = n) as -> by congruence. auto.
    + rewrite Hf in Hq by done. destruct (Hcl q n Hq) as [Hl Hr].
      split; [destruct Hl as [?|?]|destruct Hr as [?|?]];
        (by left) || (right; by apply Hkeep).
Qed.

Lemma empty_heap_wf s j : heap_wf (empty_heap s j).
Proof.
  split; simpl.
  - done.
  - intros q [n Hn]. by rewrite lookup_empty in Hn.
  - intros q n Hn. by rewrite lookup_empty in Hn.
Qed.

Lemma TreeCreate_wf level d h p h' :
  heap_wf h → TreeCreate level d h = (p, h') →
  heap_wf h' ∧ child_ok (cells h') p.
Proof.
  intros Hwf Htc. apply TreeCreate_extends in Htc as [Hext Hp].
  split; [by eapply extends_wf|].
  destruct Hp as [->|Hp]; [by left|right].
  destruct (ext_new _ _ Hext p Hp) as (n & -> & _). by eexists.
Qed.

(** Reading a tree that lies in the cells handed out between [h0] and [h1]
    needs those cells only. *)
Lemma tree_at_frame h0 h1 (m : gmap N Node) depth :
  extends h0 h1 →
  (∀ q, fresh_in h0 h1 q → m !! q = cells h1 !! q) →
  ∀ p, new_or_null h0 h1 p → tree_at depth m p = tree_at depth (cells h1) p.
Proof.
  intros Hext Hm. induction depth as [|depth IH]; intros p Hp; [done|].
  simpl. destruct Hp as [->|Hp]; [done|].
  destruct (p =? NULL)%N; [done|]. rewrite (Hm p Hp).
  destruct (ext_new _ _ Hext p Hp) as (n & -> & Hl & Hr).
  by rewrite (IH _ Hl), (IH _ Hr).
Qed.

Lemma tree_at_NULL depth (m : gmap N Node) : tree_at depth m NULL = Empty.
Proof. by destruct depth. Qed.

Lemma nodes_pow level : nodes level = (2 ^ S level - 1)%nat.
Proof.
  induction level as [|level IH]; [done|].
  change (nodes (S level)) with (S (nodes level + nodes level)).
  rewrite IH. rewrite (Nat.pow_succ_r' 2 (S level)).
  assert (1 ≤ 2 ^ S level)%nat by (apply Nat.neq_0_lt_0, Nat.pow_nonzero; lia).
  lia.
Qed.

(** With [nodes level] successful allocations ahead, [TreeCreate level data]
    uses exactly those, returns the first address handed out, and the tree
    below it is [built level data]. *)
Lemma TreeCreate_built level : ∀ d h rest,
  supply h = replicate (nodes level) true ++ rest →
  ∃ h', TreeCreate level d h = (N.succ (brk h), h') ∧
        supply h' = rest ∧
        ∀ k, tree_at (S level + k) (cells h') (N.succ (brk h)) =
             built level d.
Proof.
  induction level as [|level IH]; intros d h rest Hs.
  - cbn [TreeCreate]. rewrite (malloc_true h rest Hs).
    rewrite succ_not_NULL. eexists. split; [done|]. split; [done|].
    intros k. simpl. rewrite succ_not_NULL.
    rewrite !lookup_alter_eq, lookup_insert_eq. simpl.
    by rewrite !tree_at_NULL.
  - change (nodes (S level)) with (S (nodes level + nodes level)) in Hs.
    rewrite replicate_S, replicate_add in Hs. simpl in Hs.
    rewrite <- (assoc_L (++)) in Hs.
    cbn [TreeCreate]. rewrite (malloc_true h _ Hs), succ_not_NULL.
    set (tree := N.succ (brk h)).
    set (h0 := mkHeap _ tree _ _).
    destruct (IH (padd d 1) (set_data tree (deref d) h0) _ eq_refl)
      as (h1 & Hl & Hs1 & Hleft).
    rewrite Hl.
    destruct (IH (padd d (Nat.shiftl 1 level))
                (set_leftChild tree (N.succ tree) h1) rest Hs1)
      as (h2 & Hr & Hs2 & Hright).
    change (brk (set_data tree (deref d) h0)) with tree in *.
    change (brk (set_leftChild tree (N.succ tree) h1)) with (brk h1) in *.
    rewrite Hr. eexists. split; [done|]. split; [done|]. intros k.
    apply TreeCreate_extends in Hl as [Hext1 Hnl].
    apply TreeCreate_extends in Hr as [Hext2 Hnr].
    pose proof (fork_cells h h0 h1 h2 tree (deref d) (N.succ tree)
                  (N.succ (brk h1)) eq_refl eq_refl eq_refl Hext1 Hext2)
      as Hcells.
    pose proof (ext_brk _ _ Hext1) as Hb1.
    pose proof (ext_brk _ _ Hext2) as Hb2. simpl in Hb1, Hb2.
    change (S (S level) + k)%nat with (S (S level + k)).
    cbn [tree_at]. rewrite (succ_not_NULL (brk h) : (tree =? NULL)%N = false).
    rewrite Hcells.
    rewrite decide_True by done.
    cbn [data leftChild rightChild built]. f_equal.
    + rewrite <- (Hleft k).
      apply (tree_at_frame _ _ _ _ Hext1); [|done].
      intros q Hq. unfold fresh_in in Hq. simpl in Hq.
      rewrite Hcells. unfold fresh_in. simpl.
      rewrite decide_False by lia. rewrite decide_False by lia.
      by rewrite decide_True by lia.
    + rewrite <- (Hright k).
      apply (tree_at_frame _ _ _ _ Hext2); [|done].
      intros q Hq. unfold fresh_in in Hq. simpl in Hq.
      rewrite Hcells. unfold fresh_in. simpl.
      rewrite decide_False by lia. by rewrite decide_True by lia.
Qed.


Lemma serialize_built_length level d :
  length (serialize (built level d)) = nodes level.
Proof.
  revert d. induction level as [|level IH]; intros d; [done|].
  cbn [built serialize nodes length]. by rewrite length_app, !IH.
Qed.

(** In the serialization of what [TreeCreate (S level) data] builds, the
    right subtree starts after the root and the [nodes level] bytes of the
    left subtree, and the byte found there is [data[2 ^ level]]: the right
    subtree is built from inside the bytes the left subtree has read. *)
Lemma serialize_built_right level d :
  serialize (built (S level) d) !! S (nodes level) =
    Some (d (2 ^ level)%nat).
Proof.
  cbn [built serialize]. rewrite lookup_cons.
  rewrite lookup_app_r by (rewrite serialize_built_length; lia).
  rewrite serialize_built_length, Nat.sub_diag.
  rewrite Nat.shiftl_1_l.
  destruct level; cbn [built serialize]; simpl;
    unfold deref, padd; by rewrite Nat.add_0_r.
Qed.

(** ** The cursor of the decoder *)

Lemma in_tree_node h root p :
  heap_wf h → in_tree (cells h) root p →
  p ≠ NULL ∧ is_Some (cells h !! p).
Proof.
  intros Hwf. induction 1 as [|p n _ _ Hn Hc|p n _ _ Hn Hc]; [done| |].
  - destruct (wf_closed _ Hwf p n Hn) as [[?|?] _]; done.
  - destruct (wf_closed _ Hwf p n Hn) as [_ [?|?]]; done.
Qed.

Section DecoderInvariant.
Context `{Headers}.

Lemma MorseInit_ok past s0 s :
  SUCCESS ≠ STANDARD_ERROR →
  heap_wf (heap s0) →
  MorseInit past s0 = (SUCCESS, s) →
  decoder_ok s ∧ temp s = chartree s.
Proof.
  intros Hne Hwf. unfold MorseInit.
  destruct (TreeCreate 6 _ _) as [p h] eqn:Htc.
  destruct (TreeCreate_wf _ _ _ _ _ Hwf Htc) as [Hwf' Hp].
  destruct (p =? NULL)%N eqn:Hnull; intros Heq; simplify_eq.
  apply N.eqb_neq in Hnull. split; [|done]. split; [done|]. simpl.
  apply in_tree_root; [done|]. by destruct Hp.
Qed.

Lemma MorseDecode_ok inp s :
  decoder_ok s →
  ∃ c s', MorseDecode inp s = Some (c, s') ∧ decoder_ok s' ∧
          heap s' = heap s ∧ chartree s' = chartree s.
Proof.
  intros [Hwf Hin].
  destruct (in_tree_node _ _ _ Hwf Hin) as [Hnn [n Hn]].
  assert (in_tree (cells (heap s)) (chartree s) (chartree s)) as Hroot.
  { clear Hn Hnn. induction Hin; [by apply in_tree_root|assumption..]. }
  unfold MorseDecode, decoder_ok. rewrite Hn. simpl.
  repeat case_match; simplify_eq; eauto 10.
  - do 2 eexists. split; [done|]. simpl. split; [|done]. split; [done|].
    apply (in_tree_left _ _ (temp s) n); [done..|]. by apply N.eqb_neq.
  - do 2 eexists. split; [done|]. simpl. split; [|done]. split; [done|].
    apply (in_tree_right _ _ (temp s) n); [done..|]. by apply N.eqb_neq.
Qed.

(** C8.  After a [MorseInit] that returned [SUCCESS] on a well-formed heap,
    the cursor is the root, and after any sequence of calls of [MorseDecode]
    (every one of which returns) the heap and the root are as [MorseInit]
    left them and the cursor is a node of the tree below the root: not
    [NULL], and the address of a node of the heap. *)
Theorem C8_cursor_in_tree past s0 s inps :
  SUCCESS ≠ STANDARD_ERROR →
  heap_wf (heap s0) →
  MorseInit past s0 = (SUCCESS, s) →
  temp s = chartree s ∧
  in_tree (cells (heap s)) (chartree s) (chartree s) ∧
  ∃ cs s',
    decode_all inps s = Some (cs, s') ∧
    length cs = length inps ∧
    heap s' = heap s ∧ chartree s' = chartree s ∧
    in_tree (cells (heap s)) (chartree s) (temp s') ∧
    temp s' ≠ NULL ∧ is_Some (cells (heap s) !! temp s').
Proof.
  intros Hne Hwf Hinit.
  destruct (MorseInit_ok past s0 s Hne Hwf Hinit) as [Hok Htemp].
  split; [done|]. split.
  { destruct Hok as [_ Hin]. by rewrite Htemp in Hin. }
  assert (∀ s1, decoder_ok s1 →
    ∃ cs s', decode_all inps s1 = Some (cs, s') ∧ length cs = length inps ∧
             decoder_ok s' ∧ heap s' = heap s1 ∧ chartree s' = chartree s1)
    as Hrun.
  { induction inps as [|i inps IH]; intros s1 Hs1; simpl.
    - by exists [], s1.
    - destruct (MorseDecode_ok i s1 Hs1) as (c & s2 & -> & Hs2 & Hh & Hr).
      destruct (IH s2 Hs2) as (cs & s' & Hd & Hlen & Hs' & Hh' & Hr').
      simpl. rewrite Hd. simpl. exists (c :: cs), s'.
      split; [done|]. split; [simpl; lia|]. split; [done|].
      split; congruence. }
  destruct (Hrun s Hok) as (cs & s' & Hd & Hlen & [Hwf' Hin] & Hh & Hr).
  exists cs, s'. rewrite Hh, Hr in Hin. rewrite Hh in Hwf'.
  repeat split; try done; by eapply in_tree_node.
Qed.

End DecoderInvariant.

(** ** TreeCreate on concrete inputs *)

Lemma TreeCreate_root level d h :
  (TreeCreate level d h).1 = (malloc h).1.
Proof.
  destruct level; simpl; destruct (malloc h) as [tree h0]; simpl;
    destruct (tree =? NULL)%N eqn:Hnull;
    try (apply N.eqb_eq in Hnull; by subst);
    repeat (destruct (TreeCreate _ _ _)); done.
Qed.

(** C1.  With every allocation succeeding, [TreeCreate(1, "ABC")] returns a
    tree that serializes to "ABB", and [TreeCreate(2, "ABDECFG")], on the
    array of the comment above the function, one that serializes to
    "ABDDDEE": the right subtree starts [1 << (level - 1)] places into the
    data, inside what the left subtree has read. *)
Theorem C1_serialization_differs :
  (let '(p, h) :=
     TreeCreate 1 (array [chr "A"; chr "B"; chr "C"] zeros)
                (empty_heap (replicate 3 true) garbage) in
   p = 1%N ∧ supply h = [] ∧
   serialize (tree_at 8 (cells h) p) = [chr "A"; chr "B"; chr "B"]) ∧
  (let '(p, h) :=
     TreeCreate 2
       (array [chr "A"; chr "B"; chr "D"; chr "E"; chr "C"; chr "F"; chr "G"]
              zeros)
       (empty_heap (replicate 7 true) garbage) in
   p = 1%N ∧ supply h = [] ∧
   serialize (tree_at 8 (cells h) p) =
     [chr "A"; chr "B"; chr "D"; chr "D"; chr "D"; chr "E"; chr "E"]).
Proof. by vm_compute. Qed.

(** C2.  [TreeCreate] returns [NULL] exactly when its own, first [malloc]
    does.  With the second allocation failing, [TreeCreate(1, "ABC")]
    returns a node whose left child is [NULL] and whose right child is a
    leaf; with only the first allocation succeeding, it returns a node with
    no children at all. *)
Theorem C2_failure_below_root_is_swallowed :
  (∀ level d h, (TreeCreate level d h).1 = (malloc h).1) ∧
  (let '(p, h) :=
     TreeCreate 1 (array [chr "A"; chr "B"; chr "C"] zeros)
                (empty_heap [true; false; true] garbage) in
   p = 1%N ∧
   cells h !! p = Some (mkNode (chr "A") NULL 2%N) ∧
   tree_at 8 (cells h) p =
     Fork (chr "A") Empty (Fork (chr "B") Empty Empty)) ∧
  (let '(p, h) :=
     TreeCreate 1 (array [chr "A"; chr "B"; chr "C"] zeros)
                (empty_heap [true] garbage) in
   p = 1%N ∧ cells h !! p = Some (mkNode (chr "A") NULL NULL)).
Proof. split; [exact TreeCreate_root|by vm_compute]. Qed.

(** ** The decoder on the Morse tree *)

(** C5.  After a dot from the root, a call with ['x'], which is none of the
    four symbols, returns [STANDARD_ERROR] and leaves the cursor on the left
    child of the root, where the dot had put it; the end-of-character that
    follows reads ['E'] there. *)
Theorem C5_invalid_symbol_keeps_cursor :
  chartree booted = 1%N ∧ temp booted = 1%N ∧
  ∃ s,
    decode_all (H := lab8_headers) [46; chr "x"] booted =
      Some ([1; @STANDARD_ERROR lab8_headers], s) ∧
    temp s = 2%N ∧ chartree s = 1%N ∧
    fst <$> MorseDecode (H := lab8_headers) 35 s = Some (chr "E").
Proof.
  split; [by vm_compute|]. split; [by vm_compute|].
  eexists. split; [by vm_compute|]. by vm_compute.
Qed.

(** ** The detector on concrete runs *)

(** C3.  A dot, then 99 ticks without button events, then the press on the
    tick on which the counter is 100: the call returns
    [MORSE_EVENT_INTER_WORD] and leaves [WAITING].  A dot, then 150 ticks
    without button events, then the press: [MORSE_EVENT_INTER_WORD] on the
    100th of the 150 ticks, and [MORSE_EVENT_NONE] on the tick of the press;
    no call returns [MORSE_EVENT_INTER_LETTER]. *)
Theorem C3_press_after_letter_gap :
  ticks (H := lab8_headers)
        ([128] ++ replicate 24 0 ++ [64] ++ replicate 99 0 ++ [128])
        detector_init =
    (no_events 25 ++ [MORSE_EVENT_DOT] ++ no_events 99 ++
       [MORSE_EVENT_INTER_WORD],
     mkDetector WAITING 128 100) ∧
  ticks (H := lab8_headers)
        ([128] ++ replicate 24 0 ++ [64] ++ replicate 150 0 ++ [128])
        detector_init =
    (no_events 25 ++ [MORSE_EVENT_DOT] ++ no_events 99 ++
       [MORSE_EVENT_INTER_WORD] ++ no_events 51,
     mkDetector DOT 128 0).
Proof. by vm_compute. Qed.

(** C4.  After a dot, and after a dash, 200 ticks without button events:
    [MORSE_EVENT_INTER_WORD] is returned once, on the 100th of them, and the
    100 ticks after it, the 200th included, return [MORSE_EVENT_NONE] in
    [WAITING]. *)
Theorem C4_inter_word_at_letter_threshold :
  ticks (H := lab8_headers)
        ([128] ++ replicate 24 0 ++ [64] ++ replicate 200 0) detector_init =
    (no_events 25 ++ [MORSE_EVENT_DOT] ++ no_events 99 ++
       [MORSE_EVENT_INTER_WORD] ++ no_events 100,
     mkDetector WAITING 0 0) ∧
  ticks (H := lab8_headers)
        ([128] ++ replicate 60 0 ++ [64] ++ replicate 200 0) detector_init =
    (no_events 61 ++ [MORSE_EVENT_DASH] ++ no_events 99 ++
       [MORSE_EVENT_INTER_WORD] ++ no_events 100,
     mkDetector WAITING 0 0).
Proof. by vm_compute. Qed.

(** ** The theorems at concrete inputs *)

(** [C6_end_of_char] with the cursor on the root of the Morse tree, whose
    payload is the filler. *)
Lemma C6_end_of_char_witness :
  (data booted_root = NUL →
     MorseDecode (H := lab8_headers) 35 booted =
       Some (to_char 0, set_temp (chartree booted) booted)) ∧
  (data booted_root ≠ NUL →
     MorseDecode (H := lab8_headers) 35 booted =
       Some (data booted_root, set_temp (chartree booted) booted) ∧
     data booted_root ≠ to_char 0) ∧
  temp (set_temp (chartree booted) booted) = chartree booted.
Proof.
  apply (C6_end_of_char (H := lab8_headers) booted booted_root);
    by vm_compute.
Defined.

(** [C7_dot_dash_step] with the cursor on the root of the Morse tree, which
    has both children, and on the node that six dots lead to, which has
    none. *)
Lemma C7_dot_dash_step_witness :
  (∃ s', MorseDecode (H := lab8_headers) 46 booted = Some (to_char 1, s') ∧
         temp s' = 2%N ∧
         heap s' = heap booted ∧ chartree s' = chartree booted) ∧
  (∃ s', MorseDecode (H := lab8_headers) 45 booted = Some (to_char 1, s') ∧
         temp s' = 65%N ∧
         heap s' = heap booted ∧ chartree s' = chartree booted) ∧
  decode_all (H := lab8_headers) (replicate 6 46) booted =
    Some (replicate 6 1, booted_leaf) ∧
  MorseDecode (H := lab8_headers) 46 booted_leaf =
    Some (to_char 0, booted_leaf) ∧
  MorseDecode (H := lab8_headers) 45 booted_leaf =
    Some (to_char 0, booted_leaf).
Proof.
  destruct (C7_dot_dash_step (H := lab8_headers) booted booted_root)
    as (_ & Hdot & _ & Hdash); [by vm_compute..|].
  destruct (C7_dot_dash_step (H := lab8_headers) booted_leaf booted_leaf_node)
    as (Hdot0 & _ & Hdash0 & _); [by vm_compute..|].
  split; [apply Hdot; by vm_compute|].
  split; [apply Hdash; by vm_compute|].
  split; [by vm_compute|].
  split; [apply Hdot0|apply Hdash0]; reflexivity.
Defined.

(** [C8_cursor_in_tree] for [MorseInit] on the empty heap and a run that
    decodes an [A], feeds an invalid symbol and goes on. *)
Lemma C8_cursor_in_tree_witness :
  temp booted = chartree booted ∧
  in_tree (cells (heap booted)) (chartree booted) (chartree booted) ∧
  ∃ cs s',
    decode_all (H := lab8_headers) [46; 45; 35; 120; 45; 45; 46] booted =
      Some (cs, s') ∧
    length cs = 7%nat ∧
    heap s' = heap booted ∧ chartree s' = chartree booted ∧
    in_tree (cells (heap booted)) (chartree booted) (temp s') ∧
    temp s' ≠ NULL ∧ is_Some (cells (heap booted) !! temp s').
Proof.
  apply (C8_cursor_in_tree (H := lab8_headers) zeros unbooted booted
           [46; 45; 35; 120; 45; 45; 46]).
  - by vm_compute.
  - apply empty_heap_wf.
  - by vm_compute.
Defined.

(** [C9_inter_word_before_press] on the tick that takes the counter from 99
    to 100. *)
Lemma C9_inter_word_before_press_witness :
  ∃ s',
    MorseCheckEvents (H := lab8_headers) 128 (mkDetector INTER_LETTER 0 99) =
      (MORSE_EVENT_INTER_WORD, s') ∧
    Mstate s' = WAITING ∧
    (∀ b0,
       (MorseCheckEvents (H := lab8_headers) b0
          (mkDetector INTER_LETTER 0 99)).1 = MORSE_EVENT_INTER_WORD ∧
       Mstate (MorseCheckEvents (H := lab8_headers) b0
                 (mkDetector INTER_LETTER 0 99)).2 = Mstate s' ∧
       increment (MorseCheckEvents (H := lab8_headers) b0
                    (mkDetector INTER_LETTER 0 99)).2 = increment s') ∧
    (∀ b' v,
       MorseCheckEvents (H := lab8_headers) b' s' =
       MorseCheckEvents (H := lab8_headers) b'
         (mkDetector (Mstate s') v (increment s'))) ∧
    (∀ b', to_uint8 b' ≠ 128 →
       MorseCheckEvents (H := lab8_headers) b' s' =
         (MORSE_EVENT_NONE, mkDetector WAITING (to_uint8 b') 0)).
Proof.
  apply (C9_inter_word_before_press (H := lab8_headers) 128
           (mkDetector INTER_LETTER 0 99)); by vm_compute.
Defined.

(** [C10_dash_until_release] for four ticks of hold, one of them with a
    second press, and the release. *)
Lemma C10_dash_until_release_witness :
  (∃ s',
     ticks (H := lab8_headers) [0; 0; 128; 0] (mkDetector DASH 0 51) =
       (no_events 4, s') ∧
     Mstate s' = DASH) ∧
  ticks (H := lab8_headers) ([0; 0; 128; 0] ++ [64]) (mkDetector DASH 0 51) =
    (no_events 4 ++ [MORSE_EVENT_DASH], mkDetector INTER_LETTER 64 0).
Proof.
  apply (C10_dash_until_release (H := lab8_headers) [0; 0; 128; 0] 64
           (mkDetector DASH 0 51)).
  - done.
  - repeat constructor; by vm_compute.
  - done.
Defined.

(** * More of the code *)

(** ** TreeCreate: what it reads, allocates and leaves *)

Lemma height_built level d : height (built level d) = S level.
Proof.
  revert d. induction level as [|level IH]; intros d; [done|].
  cbn [built height]. rewrite !IH. lia.
Qed.

Lemma subtree_Empty path : subtree Empty path = Empty.
Proof. by destruct path. Qed.

(** [built level data] is a perfect tree of [level + 1] levels. *)
Lemma subtree_built level : ∀ path d,
  (length path ≤ level)%nat →
  ∃ c l r, subtree (built level d) path = Fork c l r ∧
           (length path = level → l = Empty ∧ r = Empty).
Proof.
  induction level as [|level IH]; intros [|b path] d Hlen;
    cbn [built subtree length] in *; try lia.
  - by eexists _, _, _.
  - eexists _, _, _. split; [done|]. intros [=].
  - assert (length path ≤ level)%nat as Hlen' by lia.
    destruct b;
      [destruct (IH path (padd d (Nat.shiftl 1 level)) Hlen')
         as (c & l & r & -> & Hleaf)
      |destruct (IH path (padd d 1) Hlen') as (c & l & r & -> & Hleaf)];
      eexists _, _, _; (split; [done|]); intros ?; apply Hleaf; lia.
Qed.

(** A tree read back from new cells, deep enough to reach its leaves, is the
    tree those cells hold. *)
Lemma extends_represents h0 h1 :
  extends h0 h1 →
  ∀ n p, new_or_null h0 h1 p →
         (height (tree_at n (cells h1) p) < n)%nat →
         represents (cells h1) p (tree_at n (cells h1) p).
Proof.
  intros Hext. induction n as [|n IH]; intros p Hp Hh; [simpl in Hh; lia|].
  destruct Hp as [->|Hp]; [apply represents_NULL|].
  assert (p ≠ NULL) as Hnn by (unfold fresh_in, NULL in *; lia).
  simpl in *. apply N.eqb_neq in Hnn as Hnn'. rewrite Hnn' in *.
  destruct (ext_new _ _ Hext p Hp) as (n0 & Hn0 & Hl & Hr).
  rewrite Hn0 in *. simpl in Hh.
  apply represents_node; [done..| |]; apply IH; (done || lia).
Qed.

Lemma TreeCreate_represents level d h rest :
  supply h = replicate (nodes level) true ++ rest →
  ∃ h', TreeCreate level d h = (N.succ (brk h), h') ∧
        supply h' = rest ∧
        represents (cells h') (N.succ (brk h)) (built level d).
Proof.
  intros Hs. destruct (TreeCreate_built level d h rest Hs)
    as (h' & Htc & Hs' & Ht).
  exists h'. split; [done|]. split; [done|].
  apply TreeCreate_extends in Htc as [Hext Hp].
  rewrite <- (Ht 1%nat). apply (extends_represents _ _ Hext); [done|].
  rewrite Ht, height_built. lia.
Qed.

(** X1.  For [level <= 31], where [1 << (level - 1)] does not overflow:
    with [2 ^ (level + 1) - 1] successful allocations ahead,
    [TreeCreate level data] uses exactly those, returns the first address
    handed out, and leaves below it the tree [built level data]: a perfect
    tree in which every path of at most [level] steps ends on a node, the
    paths of [level] steps on nodes without children. *)
Theorem X1_TreeCreate_builds level d h rest :
  (level ≤ 31)%nat →
  supply h = replicate (2 ^ S level - 1) true ++ rest →
  ∃ h',
    TreeCreate level d h = (N.succ (brk h), h') ∧
    supply h' = rest ∧
    represents (cells h') (N.succ (brk h)) (built level d) ∧
    ∀ path, (length path ≤ level)%nat →
      ∃ c l r, subtree (built level d) path = Fork c l r ∧
               (length path = level → l = Empty ∧ r = Empty).
Proof.
  intros _. rewrite <- nodes_pow. intros Hs.
  destruct (TreeCreate_represents level d h rest Hs) as (h' & ? & ? & ?).
  exists h'. repeat split; try done. intros path. apply subtree_built.
Qed.

Lemma pow2_pos n : (0 < 2 ^ n)%nat.
Proof. apply Nat.neq_0_lt_0, Nat.pow_nonzero. lia. Qed.

Lemma TreeCreate_ext level : ∀ d d' h,
  (∀ i, (i < 2 ^ level)%nat → d i = d' i) →
  TreeCreate level d h = TreeCreate level d' h.
Proof.
  induction level as [|level IH]; intros d d' h Hd; cbn [TreeCreate];
    destruct (malloc h) as [tree h0]; destruct (tree =? NULL)%N; try done;
    unfold deref; rewrite (Hd 0%nat) by apply pow2_pos; [done|].
  pose proof (pow2_pos level) as Hpos.
  assert (2 ^ S level = 2 ^ level + 2 ^ level)%nat as Hpow
    by (rewrite Nat.pow_succ_r'; lia).
  rewrite (IH (padd d 1) (padd d' 1)).
  2:{ intros i Hi. unfold padd. apply Hd. lia. }
  destruct (TreeCreate level (padd d' 1) _) as [l h1].
  rewrite (IH (padd d (Nat.shiftl 1 level)) (padd d' (Nat.shiftl 1 level))).
  2:{ intros i Hi. unfold padd. apply Hd. rewrite Nat.shiftl_1_l. lia. }
  done.
Qed.

(** X2.  For [level <= 31], where [1 << (level - 1)] does not overflow:
    [TreeCreate level data] reads [data[0]] to [data[2 ^ level - 1]] and
    nothing else: on data that agree there it returns the same pointer and
    leaves the same heap, whatever the allocator answers. *)
Theorem X2_TreeCreate_reads level d d' h :
  (level ≤ 31)%nat →
  (∀ i, (i < 2 ^ level)%nat → d i = d' i) →
  TreeCreate level d h = TreeCreate level d' h.
Proof. intros _. apply TreeCreate_ext. Qed.

(** X3.  Whatever the allocator answers, [TreeCreate] on a well-formed heap
    leaves a well-formed heap in which every cell that existed before is as
    it was, and returns [NULL] or the address of a cell it has allocated. *)
Theorem X3_TreeCreate_frame level d h p h' :
  heap_wf h →
  TreeCreate level d h = (p, h') →
  heap_wf h' ∧
  (∀ q n, cells h !! q = Some n → cells h' !! q = Some n) ∧
  (p = NULL ∨ (cells h !! p = None ∧ is_Some (cells h' !! p))).
Proof.
  intros Hwf Htc. pose proof Htc as Htc'.
  apply TreeCreate_extends in Htc as [Hext Hp].
  split; [by eapply extends_wf|]. split.
  - intros q n Hq. rewrite (ext_frame _ _ Hext); [done|].
    assert (q ≤ brk h)%N by (apply (wf_dom _ Hwf); by eexists).
    unfold fresh_in. lia.
  - destruct Hp as [->|Hp]; [by left|right]. split.
    + destruct (cells h !! p) eqn:Hc; [|done].
      assert (p ≤ brk h)%N by (apply (wf_dom _ Hwf); by eexists).
      unfold fresh_in in Hp. lia.
    + destruct (ext_new _ _ Hext p Hp) as (n & -> & _). by eexists.
Qed.

Lemma TreeCreate_fails level d h :
  (malloc h).1 = NULL →
  (TreeCreate level d h).2.(cells) = cells h.
Proof.
  destruct level; cbn [TreeCreate]; destruct (malloc h) as [tree h0] eqn:Hm;
    simpl; intros ->; simpl;
    (apply malloc_inv in Hm as [(_ & Hc & _)|(Hp & _)];
     [done|unfold NULL in Hp; lia]).
Qed.

Lemma TreeCreate_uses level : ∀ d h p h',
  TreeCreate level d h = (p, h') →
  ∃ used, supply h = used ++ supply h' ∧
          (length used ≤ nodes level)%nat ∧
          (brk h' ≤ brk h + N.of_nat (length used))%N.
Proof.
  assert (∀ h tree h0, malloc h = (tree, h0) →
    ∃ used, supply h = used ++ supply h0 ∧ (length used ≤ 1)%nat ∧
            (brk h0 ≤ brk h + N.of_nat (length used))%N) as Hmalloc.
  { intros h tree h0. unfold malloc.
    destruct (supply h) as [|[] s] eqn:Hs; intros [= <- <-]; simpl.
    - exists []. simpl. split; [done|]. split; lia.
    - exists [true]. simpl. split; [done|]. split; lia.
    - exists [false]. simpl. split; [done|]. split; lia. }
  induction level as [|level IH]; intros d h p h'; cbn [TreeCreate];
    destruct (malloc h) as [tree h0] eqn:Hm;
    destruct (Hmalloc _ _ _ Hm) as (u0 & Hu0 & Hl0 & Hb0);
    destruct (tree =? NULL)%N.
  - intros [= <- <-]. exists u0. simpl. split; [done|]. split; lia.
  - intros [= <- <-]. exists u0. simpl. split; [done|]. split; lia.
  - intros [= <- <-]. exists u0. cbn [nodes]. split; [done|]. split; lia.
  - destruct (TreeCreate level (padd d 1) _) as [l h1] eqn:Hl.
    destruct (TreeCreate level (padd d (Nat.shiftl 1 level)) _)
      as [r h2] eqn:Hr.
    intros [= <- <-].
    destruct (IH _ _ _ _ Hl) as (u1 & Hu1 & Hl1 & Hb1).
    destruct (IH _ _ _ _ Hr) as (u2 & Hu2 & Hl2 & Hb2).
    simpl in *. exists (u0 ++ u1 ++ u2).
    rewrite Hu0, Hu1, Hu2, !length_app. rewrite <- !(assoc_L (++)).
    split; [done|]. split; lia.
Qed.

(** X4.  [TreeCreate level data] calls [malloc] at most
    [2 ^ (level + 1) - 1] times: it takes that many answers of the allocator
    at most, in order, and hands out at most one address per answer. *)
Theorem X4_TreeCreate_allocations level d h p h' :
  TreeCreate level d h = (p, h') →
  ∃ used, supply h = used ++ supply h' ∧
          (length used ≤ 2 ^ S level - 1)%nat ∧
          (brk h' ≤ brk h + N.of_nat (length used))%N.
Proof. rewrite <- nodes_pow. apply TreeCreate_uses. Qed.

(** ** MorseInit and the decoder on the whole tree *)

Section DecoderOnTree.
Context `{Headers}.

Lemma decode_all_app xs ys s :
  decode_all (xs ++ ys) s =
    '(cs, s1) ← decode_all xs s;
    '(cs', s2) ← decode_all ys s1;
    Some (cs ++ cs', s2).
Proof.
  revert s. induction xs as [|x xs IH]; intros s; simpl.
  - destruct (decode_all ys s) as [[cs' s2]|]; done.
  - destruct (MorseDecode x s) as [[c s1]|]; simpl; [|done].
    rewrite IH. destruct (decode_all xs s1) as [[cs s2]|]; simpl; [|done].
    destruct (decode_all ys s2) as [[cs' s3]|]; done.
Qed.

Lemma set_temp_temp s : set_temp (temp s) s = s.
Proof. by destruct s. Qed.

Lemma represents_NULL_inv m t : represents m NULL t → t = Empty.
Proof. by inversion 1. Qed.

(** Dots and dashes along a path of the tree below the cursor all return
    [SUCCESS] and put the cursor on the node at the end of the path. *)
Lemma decode_path path :
  MORSE_CHAR_DASH ≠ MORSE_CHAR_DOT →
  ∀ s t, represents (cells (heap s)) (temp s) t →
         subtree t path ≠ Empty →
         ∃ q, decode_all (symbol <$> path) s =
                Some (replicate (length path) (to_char SUCCESS),
                      set_temp q s) ∧
              represents (cells (heap s)) q (subtree t path).
Proof.
  intros Hne. induction path as [|b path IH]; intros s t Ht Hsub.
  - exists (temp s). rewrite set_temp_temp. split; [done|exact Ht].
  - inversion Ht as [|p n l r Hp Hn Hl Hr]; subst;
      [by rewrite subtree_Empty in Hsub|].
    cbn [subtree] in *.
    set (q0 := if b then rightChild n else leftChild n).
    assert (represents (cells (heap s)) q0 (if b then r else l)) as Hq0
      by (by destruct b).
    assert (q0 ≠ NULL) as Hq0n.
    { intros Heq. rewrite Heq in Hq0. apply represents_NULL_inv in Hq0.
      rewrite Hq0, subtree_Empty in Hsub. done. }
    assert (MorseDecode (symbol b) s = Some (to_char SUCCESS, set_temp q0 s))
      as Hstep.
    { apply N.eqb_neq in Hq0n. unfold symbol, q0 in *. destruct b.
      - by rewrite (MorseDecode_dash s n Hne Hn), Hq0n.
      - by rewrite (MorseDecode_dot s n Hn), Hq0n. }
    destruct (IH (set_temp q0 s) _ Hq0 Hsub) as (q & Hrun & Hq).
    exists q. split; [|done]. rewrite fmap_cons. cbn [decode_all].
    rewrite Hstep. cbn [mbind option_bind]. rewrite Hrun. done.
Qed.

(** On a node without the child asked for, the step fails and nothing
    changes. *)
Lemma decode_dead_end (b : bool) s c (l r : BinTree) :
  MORSE_CHAR_DASH ≠ MORSE_CHAR_DOT →
  represents (cells (heap s)) (temp s) (Fork c l r) →
  (if b then r else l) = Empty →
  MorseDecode (symbol b) s = Some (to_char STANDARD_ERROR, s).
Proof.
  intros Hne Ht Hchild. inversion Ht as [|p n l' r' Hp Hn Hl Hr]; subst.
  assert ((if b then rightChild n else leftChild n) = NULL) as Hq.
  { destruct b; simpl in Hchild; subst;
      [inversion Hr|inversion Hl]; congruence. }
  unfold symbol. destruct b.
  - by rewrite (MorseDecode_dash s n Hne Hn), Hq.
  - by rewrite (MorseDecode_dot s n Hn), Hq.
Qed.

Lemma decode_end s c l r :
  MORSE_CHAR_END_OF_CHAR ≠ MORSE_CHAR_DOT →
  MORSE_CHAR_END_OF_CHAR ≠ MORSE_CHAR_DASH →
  represents (cells (heap s)) (temp s) (Fork c l r) →
  MorseDecode MORSE_CHAR_END_OF_CHAR s = Some (c, set_temp (chartree s) s).
Proof.
  intros Hdot Hdash Ht. inversion Ht as [|p n l' r' Hp Hn Hl Hr]; subst.
  by apply MorseDecode_end_of_char.
Qed.

(** [MorseInit] with room for the whole tree. *)
Lemma MorseInit_built past s0 rest :
  supply (heap s0) = replicate 127 true ++ rest →
  ∃ s, MorseInit past s0 = (SUCCESS, s) ∧
       temp s = chartree s ∧
       supply (heap s) = rest ∧
       represents (cells (heap s)) (chartree s)
                  (built 6 (array morse_table past)).
Proof.
  intros Hs. unfold MorseInit.
  destruct (TreeCreate_represents 6 (array morse_table past) (heap s0) rest Hs)
    as (h' & -> & Hs' & Hrep).
  rewrite succ_not_NULL. by eexists.
Qed.

(** A path, then the end of the character, from the root. *)
Lemma decode_code s t cp :
  MORSE_CHAR_DASH ≠ MORSE_CHAR_DOT →
  MORSE_CHAR_END_OF_CHAR ≠ MORSE_CHAR_DOT →
  MORSE_CHAR_END_OF_CHAR ≠ MORSE_CHAR_DASH →
  temp s = chartree s →
  represents (cells (heap s)) (chartree s) t →
  payload (subtree t cp.2) = Some cp.1 →
  decode_all (keyed cp) s = Some (answered cp, s).
Proof.
  intros Hne Hdot Hdash Htemp Hrep Hpay. unfold keyed, answered.
  rewrite <- Htemp in Hrep.
  destruct (decode_path cp.2 Hne s t Hrep) as (q & Hrun & Hq).
  { intros Heq. by rewrite Heq in Hpay. }
  rewrite decode_all_app, Hrun. simpl.
  destruct (subtree t cp.2) as [|c' l r]; [done|]. injection Hpay as ->.
  rewrite (decode_end (set_temp q s) cp.1 l r); [|done..]. simpl.
  rewrite <- Htemp. by destruct s.
Qed.

(** X5.  [MorseInit] returns [SUCCESS] exactly when the first allocation
    succeeds, whatever becomes of the 126 that may follow; otherwise it
    returns [STANDARD_ERROR], sets [chartree] to [NULL] and leaves [temp] and
    the cells of the heap as they were. *)
Theorem X5_MorseInit_result past s0 :
  SUCCESS ≠ STANDARD_ERROR →
  ((MorseInit past s0).1 = SUCCESS ↔ head (supply (heap s0)) = Some true) ∧
  (head (supply (heap s0)) ≠ Some true →
     (MorseInit past s0).1 = STANDARD_ERROR ∧
     chartree (MorseInit past s0).2 = NULL ∧
     temp (MorseInit past s0).2 = temp s0 ∧
     cells (heap (MorseInit past s0).2) = cells (heap s0)).
Proof.
  intros Hne. unfold MorseInit.
  pose proof (TreeCreate_root 6 (array morse_table past) (heap s0)) as Hroot.
  pose proof (malloc_succeeds_iff (heap s0)) as Hiff.
  pose proof (TreeCreate_fails 6 (array morse_table past) (heap s0)) as Hfail.
  destruct (TreeCreate 6 _ _) as [p h] eqn:Htc. simpl in Hroot, Hfail.
  rewrite <- Hroot in Hiff, Hfail.
  destruct (p =? NULL)%N eqn:Hp; simpl.
  - apply N.eqb_eq in Hp. split.
    + split; [intros Heq; by symmetry in Heq|]. intros Hh.
      by apply Hiff in Hh.
    + intros _. by rewrite (Hfail Hp).
  - apply N.eqb_neq in Hp. split.
    + split; [intros _; by apply Hiff|done].
    + intros Hh. by apply Hiff in Hp.
Qed.

Lemma morse_code_payloads past :
  Forall (λ cp, payload (subtree (built 6 (array morse_table past)) cp.2)
                = Some cp.1) morse_code.
Proof. repeat (constructor; [vm_compute; reflexivity|]). constructor. Qed.

Lemma decode_all_length inps : ∀ s cs s',
  decode_all inps s = Some (cs, s') → length cs = length inps.
Proof.
  induction inps as [|i inps IH]; intros s cs s'; simpl.
  - by intros [= <- <-].
  - destruct (MorseDecode i s) as [[c s1]|]; simpl; [|done].
    destruct (decode_all inps s1) as [[cs1 s2]|] eqn:Hrun; simpl; [|done].
    intros [= <- <-]. simpl. by rewrite (IH _ _ _ Hrun).
Qed.

(** X6.  After [MorseInit] with room for the whole tree, keying a message of
    letters and digits in international Morse code, each character followed
    by the end-of-character symbol, returns [SUCCESS] for every dot and dash
    and the character for every end-of-character, and leaves the decoder as
    [MorseInit] left it. *)
Theorem X6_morse_round_trip past s0 rest msg :
  MORSE_CHAR_DASH ≠ MORSE_CHAR_DOT →
  MORSE_CHAR_END_OF_CHAR ≠ MORSE_CHAR_DOT →
  MORSE_CHAR_END_OF_CHAR ≠ MORSE_CHAR_DASH →
  supply (heap s0) = replicate 127 true ++ rest →
  Forall (λ cp, cp ∈ morse_code) msg →
  ∃ s, MorseInit past s0 = (SUCCESS, s) ∧
       decode_all (msg ≫= keyed) s = Some (msg ≫= answered, s).
Proof.
  intros Hne Hdot Hdash Hs Hmsg.
  destruct (MorseInit_built past s0 rest Hs) as (s & Hinit & Htemp & _ & Hrep).
  exists s. split; [done|].
  induction Hmsg as [|cp msg Hcp _ IH]; [done|].
  rewrite !bind_cons, decode_all_app.
  pose proof (morse_code_payloads past) as Hpay.
  rewrite Forall_forall in Hpay.
  rewrite (decode_code s _ cp Hne Hdot Hdash Htemp Hrep (Hpay cp Hcp)).
  simpl. by rewrite IH.
Qed.

(** X7.  After [MorseInit] with room for the whole tree, every sequence of
    six dots and dashes is accepted, each step returning [SUCCESS], and a
    seventh dot or dash returns [STANDARD_ERROR] and changes nothing: the
    tree has seven levels. *)
Theorem X7_seven_levels past s0 rest path (b : bool) :
  MORSE_CHAR_DASH ≠ MORSE_CHAR_DOT →
  supply (heap s0) = replicate 127 true ++ rest →
  length path = 6%nat →
  ∃ s s', MorseInit past s0 = (SUCCESS, s) ∧
          decode_all (symbol <$> path) s =
            Some (replicate 6 (to_char SUCCESS), s') ∧
          MorseDecode (symbol b) s' = Some (to_char STANDARD_ERROR, s').
Proof.
  intros Hne Hs Hlen.
  destruct (MorseInit_built past s0 rest Hs) as (s & Hinit & Htemp & _ & Hrep).
  destruct (subtree_built 6 path (array morse_table past))
    as (c & l & r & Hsub & Hleaf); [lia|].
  destruct (Hleaf Hlen) as [-> ->]. rewrite <- Htemp in Hrep.
  destruct (decode_path path Hne s _ Hrep) as (q & Hrun & Hq);
    [by rewrite Hsub|].
  rewrite Hsub in Hq. rewrite Hlen in Hrun.
  exists s, (set_temp q s). split; [done|]. split; [done|].
  apply (decode_dead_end b _ c Empty Empty Hne); [done|by destruct b].
Qed.

(** X8.  A symbol that is none of the four [MorseChar] values is answered
    with [STANDARD_ERROR] and otherwise skipped: a run with such a symbol in
    it returns what the run without it returns, with that one answer put in,
    and ends in the same state. *)
Theorem X8_invalid_symbol_skipped xs ys bad s :
  bad ≠ MORSE_CHAR_DOT → bad ≠ MORSE_CHAR_DASH →
  bad ≠ MORSE_CHAR_END_OF_CHAR → bad ≠ MORSE_CHAR_DECODE_RESET →
  decode_all (xs ++ bad :: ys) s =
    '(cs, s') ← decode_all (xs ++ ys) s;
    Some (take (length xs) cs ++ to_char STANDARD_ERROR ::
            drop (length xs) cs, s').
Proof.
  intros H1 H2 H3 H4. rewrite !decode_all_app.
  destruct (decode_all xs s) as [[cs1 s1]|] eqn:Hxs; simpl; [|done].
  rewrite (MorseDecode_other bad s1 H1 H2 H3 H4). simpl.
  destruct (decode_all ys s1) as [[cs2 s2]|]; simpl; [|done].
  apply decode_all_length in Hxs. rewrite <- Hxs.
  by rewrite take_app_length, drop_app_length.
Qed.

(** X9.  [MorseInit] takes from the stack behind its array the one byte
    [tree[63]] and nothing else, and that byte is the payload of the node
    that six dashes lead to: after [MorseInit] with room for the whole tree,
    six dashes and the end-of-character symbol return it. *)
Theorem X9_byte_behind_the_table past s0 rest :
  MORSE_CHAR_DASH ≠ MORSE_CHAR_DOT →
  MORSE_CHAR_END_OF_CHAR ≠ MORSE_CHAR_DOT →
  MORSE_CHAR_END_OF_CHAR ≠ MORSE_CHAR_DASH →
  supply (heap s0) = replicate 127 true ++ rest →
  (∀ past' s1, past' 0%nat = past 0%nat →
               MorseInit past' s1 = MorseInit past s1) ∧
  ∃ s, MorseInit past s0 = (SUCCESS, s) ∧
       decode_all (replicate 6 MORSE_CHAR_DASH ++ [MORSE_CHAR_END_OF_CHAR]) s
         = Some (replicate 6 (to_char SUCCESS) ++ [past 0%nat], s).
Proof.
  intros Hne Hdot Hdash Hs. split.
  - intros past' s1 Hpast. unfold MorseInit.
    rewrite (TreeCreate_ext 6 (array morse_table past')
               (array morse_table past)); [done|].
    intros i Hi. unfold array.
    destruct (morse_table !! i) eqn:Hi'; [done|].
    apply lookup_ge_None in Hi'. change (length morse_table) with 63%nat in *.
    change (2 ^ 6)%nat with 64%nat in Hi.
    assert (i = 63%nat) as -> by lia. done.
  - destruct (MorseInit_built past s0 rest Hs)
      as (s & Hinit & Htemp & _ & Hrep).
    exists s. split; [done|].
    by apply (decode_code s _ (past 0%nat, replicate 6 true)
                Hne Hdot Hdash Htemp Hrep).
Qed.

End DecoderOnTree.

(** ** The event detector over whole runs *)

Lemma to_int_small z : - 2 ^ 31 ≤ z < 2 ^ 31 → to_int z = z.
Proof. intros Hz. unfold to_int. rewrite Z.mod_small; lia. Qed.

Section DetectorRuns.
Context `{Headers}.

Lemma ticks_waiting_idle bs s :
  Mstate s = WAITING →
  Forall (λ b, to_uint8 b ≠ BUTTON_EVENT_4DOWN) bs →
  ∃ s', ticks bs s = (no_events (length bs), s') ∧ Mstate s' = WAITING.
Proof.
  intros Hs Hbs. revert s Hs.
  induction Hbs as [|b bs Hb _ IH]; intros s Hs; simpl.
  - by exists s.
  - rewrite (MorseCheckEvents_waiting b s Hs).
    apply Z.eqb_neq in Hb. rewrite Hb.
    destruct (IH (mkDetector WAITING (to_uint8 b) 0)) as (s' & -> & Hs');
      [done|].
    by exists s'.
Qed.

Lemma MorseCheckEvents_dot_held b s :
  Mstate s = DOT → to_uint8 b ≠ BUTTON_EVENT_4UP →
  MorseCheckEvents b s =
    (MORSE_EVENT_NONE,
     mkDetector (if to_int (increment s + 1) >? MORSE_EVENT_LENGTH_DOWN_DASH
                 then DASH else DOT)
                (to_uint8 b) (to_int (increment s + 1))).
Proof.
  intros Hs Hb. unfold MorseCheckEvents. apply Z.eqb_neq in Hb.
  rewrite Hs, Hb. by destruct (_ >? _).
Qed.

Lemma MorseCheckEvents_dot_released b s :
  Mstate s = DOT → to_uint8 b = BUTTON_EVENT_4UP →
  MorseCheckEvents b s =
    (MORSE_EVENT_DOT, mkDetector INTER_LETTER (to_uint8 b) 0).
Proof.
  intros Hs Hb. unfold MorseCheckEvents. apply Z.eqb_eq in Hb.
  by rewrite Hs, Hb.
Qed.

(** A hold that starts in [DOT]: it is still [DOT] while the counter has not
    passed [MORSE_EVENT_LENGTH_DOWN_DASH], and [DASH] from then on. *)
Lemma ticks_dot_held hold : ∀ s,
  MORSE_EVENT_LENGTH_DOWN_DASH < 2 ^ 31 - 1 →
  Mstate s = DOT →
  0 ≤ increment s ≤ MORSE_EVENT_LENGTH_DOWN_DASH →
  Forall (λ b, to_uint8 b ≠ BUTTON_EVENT_4UP) hold →
  ∃ s', ticks hold s = (no_events (length hold), s') ∧
        Mstate s' =
          if decide (increment s + Z.of_nat (length hold) ≤ MORSE_EVENT_LENGTH_DOWN_DASH)
          then DOT else DASH.
Proof.
  induction hold as [|b hold IH]; intros s HT Hs Hc Hhold.
  - exists s. split; [done|]. simpl. rewrite decide_True by lia. done.
  - apply Forall_cons in Hhold as [Hb Hhold]. cbn [ticks].
    rewrite (MorseCheckEvents_dot_held b s Hs Hb).
    rewrite to_int_small by lia.
    destruct (increment s + 1 >? MORSE_EVENT_LENGTH_DOWN_DASH) eqn:Hgt.
    + apply Z.gtb_lt in Hgt.
      destruct (ticks_dash_held hold
                  (mkDetector DASH (to_uint8 b) (increment s + 1)))
        as (s' & -> & Hs'); [done..|].
      exists s'. split; [done|]. rewrite Hs'.
      rewrite decide_False; [done|]. simpl. lia.
    + assert (increment s + 1 ≤ MORSE_EVENT_LENGTH_DOWN_DASH) as Hle.
      { rewrite Z.gtb_ltb in Hgt. apply Z.ltb_ge in Hgt. lia. }
      destruct (IH (mkDetector DOT (to_uint8 b) (increment s + 1)))
        as (s' & -> & Hs'); [done|done|simpl; lia|done|].
      exists s'. split; [done|]. rewrite Hs'. simpl.
      repeat case_decide; (done || lia).
Qed.

(** X10.  From [WAITING]: ticks without a press, the press, a hold of any
    length without a release, and the release return one event, on the tick
    of the release: [MORSE_EVENT_DOT] when the hold lasted at most
    [MORSE_EVENT_LENGTH_DOWN_DASH] ticks, a press released on the next tick
    included, and [MORSE_EVENT_DASH] when it lasted longer.  The detector is
    then in [INTER_LETTER] with the counter at 0. *)
Theorem X10_keying_a_symbol pre bd hold bu s :
  0 ≤ MORSE_EVENT_LENGTH_DOWN_DASH < 2 ^ 31 - 1 →
  Mstate s = WAITING →
  Forall (λ b, to_uint8 b ≠ BUTTON_EVENT_4DOWN) pre →
  to_uint8 bd = BUTTON_EVENT_4DOWN →
  Forall (λ b, to_uint8 b ≠ BUTTON_EVENT_4UP) hold →
  to_uint8 bu = BUTTON_EVENT_4UP →
  ticks (pre ++ [bd] ++ hold ++ [bu]) s =
    (no_events (length pre + 1 + length hold) ++
       [if decide (Z.of_nat (length hold) ≤ MORSE_EVENT_LENGTH_DOWN_DASH)
        then MORSE_EVENT_DOT else MORSE_EVENT_DASH],
     mkDetector INTER_LETTER (to_uint8 bu) 0).
Proof.
  intros HT Hs Hpre Hbd Hhold Hbu.
  destruct (ticks_waiting_idle pre s Hs Hpre) as (s1 & Hrun1 & Hs1).
  rewrite ticks_app, Hrun1, ticks_app. cbn [ticks].
  rewrite (MorseCheckEvents_waiting bd s1 Hs1).
  apply Z.eqb_eq in Hbd as Hbd'. rewrite Hbd'. cbn [ticks].
  rewrite ticks_app.
  destruct (ticks_dot_held hold (mkDetector DOT (to_uint8 bd) 0))
    as (s2 & -> & Hs2); [lia|done|simpl; lia|done|].
  cbn [increment] in Hs2. rewrite Z.add_0_l in Hs2. cbn [ticks].
  unfold no_events. rewrite !replicate_add.
  destruct (decide (Z.of_nat (length hold) ≤ MORSE_EVENT_LENGTH_DOWN_DASH)).
  - rewrite (MorseCheckEvents_dot_released bu s2 Hs2 Hbu).
    simpl. by rewrite <- !(assoc_L (++)).
  - rewrite (MorseCheckEvents_dash_released bu s2 Hs2 Hbu).
    simpl. by rewrite <- !(assoc_L (++)).
Qed.

(** Ticks without a press in [INTER_LETTER], as long as the counter stays
    below [MORSE_EVENT_LENGTH_UP_INTER_LETTER]. *)
Lemma ticks_gap_idle bs : ∀ s,
  MORSE_EVENT_LENGTH_UP_INTER_LETTER ≤ 2 ^ 31 →
  Mstate s = INTER_LETTER →
  0 ≤ increment s →
  increment s + Z.of_nat (length bs) < MORSE_EVENT_LENGTH_UP_INTER_LETTER →
  Forall (λ b, to_uint8 b ≠ BUTTON_EVENT_4DOWN) bs →
  ∃ s', ticks bs s = (no_events (length bs), s') ∧
        Mstate s' = INTER_LETTER ∧
        increment s' = increment s + Z.of_nat (length bs).
Proof.
  induction bs as [|b bs IH]; intros s HL Hs Hc Hlen Hbs.
  - exists s. simpl. repeat split; (done || lia).
  - apply Forall_cons in Hbs as [Hb Hbs]. cbn [ticks length] in *.
    rewrite (MorseCheckEvents_inter_letter_short b s Hs)
      by (rewrite to_int_small; lia).
    rewrite to_int_small by lia. apply Z.eqb_neq in Hb. rewrite Hb.
    destruct (IH (mkDetector INTER_LETTER (to_uint8 b) (increment s + 1)))
      as (s' & -> & Hs' & Hc'); [done|done|simpl; lia|simpl; lia|done|].
    exists s'. simpl in *. repeat split; (done || lia).
Qed.

(** X11.  After a dot or a dash ([INTER_LETTER], counter 0), a press on one
    of the first [MORSE_EVENT_LENGTH_UP_INTER_LETTER - 1] ticks returns no
    event, nor does any tick before it: the detector goes to [DOT] with the
    counter at 0 and the next symbol belongs to the same character. *)
Theorem X11_short_gap bs b s :
  MORSE_EVENT_LENGTH_UP_INTER_LETTER ≤ 2 ^ 31 →
  Mstate s = INTER_LETTER → increment s = 0 →
  Forall (λ x, to_uint8 x ≠ BUTTON_EVENT_4DOWN) bs →
  to_uint8 b = BUTTON_EVENT_4DOWN →
  Z.of_nat (length bs) + 1 < MORSE_EVENT_LENGTH_UP_INTER_LETTER →
  ticks (bs ++ [b]) s =
    (no_events (length bs + 1), mkDetector DOT (to_uint8 b) 0).
Proof.
  intros HL Hs Hc Hbs Hb Hlen.
  destruct (ticks_gap_idle bs s HL Hs) as (s' & Hrun & Hs' & Hc');
    [lia|lia|done|].
  rewrite ticks_app, Hrun. cbn [ticks].
  rewrite (MorseCheckEvents_inter_letter_short b s' Hs')
    by (rewrite to_int_small; lia).
  apply Z.eqb_eq in Hb. rewrite Hb.
  unfold no_events. by rewrite replicate_add.
Qed.

(** X12.  After a dot or a dash ([INTER_LETTER], counter 0) and
    [MORSE_EVENT_LENGTH_UP_INTER_LETTER - 1] ticks without a press, the next
    tick returns [MORSE_EVENT_INTER_WORD] and leaves [WAITING], whatever the
    buttons do on it; no tick before it returns an event. *)
Theorem X12_word_gap bs b s :
  MORSE_EVENT_LENGTH_UP_INTER_LETTER ≤ 2 ^ 31 - 1 →
  Mstate s = INTER_LETTER → increment s = 0 →
  Forall (λ x, to_uint8 x ≠ BUTTON_EVENT_4DOWN) bs →
  Z.of_nat (length bs) + 1 = MORSE_EVENT_LENGTH_UP_INTER_LETTER →
  ticks (bs ++ [b]) s =
    (no_events (length bs) ++ [MORSE_EVENT_INTER_WORD],
     mkDetector WAITING (to_uint8 b) MORSE_EVENT_LENGTH_UP_INTER_LETTER).
Proof.
  intros HL Hs Hc Hbs Hlen.
  destruct (ticks_gap_idle bs s) as (s' & Hrun & Hs' & Hc');
    [lia|done|lia|lia|done|].
  rewrite ticks_app, Hrun. cbn [ticks].
  rewrite (MorseCheckEvents_inter_letter_gap b s' Hs')
    by (rewrite to_int_small; lia).
  rewrite to_int_small by lia. do 3 f_equal. lia.
Qed.

(** X13.  No run returns [MORSE_EVENT_INTER_LETTER] on any tick, from any
    state, for any button events and any values of the thresholds. *)
Theorem X13_no_end_of_character bs s :
  MORSE_EVENT_INTER_LETTER ∉ (ticks bs s).1.
Proof.
  revert s. induction bs as [|b bs IH]; intros s; simpl.
  - apply not_elem_of_nil.
  - pose proof (MorseCheckEvents_never_inter_letter b s) as Hb.
    destruct (MorseCheckEvents b s) as [e s1]. specialize (IH s1).
    destruct (ticks bs s1) as [es s2]. simpl in *.
    apply not_elem_of_cons. split; [congruence|done].
Qed.

Lemma words_follow_symbols_ticks bs : ∀ s flag,
  (Mstate s = INTER_LETTER → flag = true) →
  words_follow_symbols flag (ticks bs s).1 = true.
Proof.
  induction bs as [|b bs IH]; intros s flag Hflag; [done|].
  cbn [ticks].
  destruct (MorseCheckEvents b s) as [e s1] eqn:Hstep.
  specialize (IH s1). destruct (ticks bs s1) as [es s2]. simpl in IH |- *.
  assert (match e with
          | MORSE_EVENT_NONE => Mstate s1 = INTER_LETTER → flag = true
          | MORSE_EVENT_INTER_WORD =>
              flag = true ∧ Mstate s1 ≠ INTER_LETTER
          | MORSE_EVENT_INTER_LETTER => Mstate s1 ≠ INTER_LETTER
          | _ => True
          end) as He.
  { unfold MorseCheckEvents in Hstep.
    destruct (Mstate s) eqn:Hs;
      repeat (match type of Hstep with
              | context [if ?c then _ else _] => destruct c
              end);
      injection Hstep as <- <-; simpl; auto; try done. }
  destruct e; simpl.
  - by apply IH.
  - by apply IH.
  - by apply IH.
  - apply IH. intros ?. by destruct He.
  - destruct He as [-> He]. simpl. apply IH. intros ?. by destruct He.
Qed.

(** X14.  In every run that does not start in [INTER_LETTER], each
    [MORSE_EVENT_INTER_WORD] comes after a dot or a dash with nothing but
    [MORSE_EVENT_NONE] in between: there is at most one per dot or dash, and
    none before the first. *)
Theorem X14_one_word_gap_per_symbol bs s :
  Mstate s ≠ INTER_LETTER →
  words_follow_symbols false (ticks bs s).1 = true.
Proof. intros Hs. by apply words_follow_symbols_ticks. Qed.

End DetectorRuns.

(** ** Resetting the decoder *)

Section DecoderReset.
Context `{Headers}.

Lemma MorseDecode_reset s :
  MORSE_CHAR_DECODE_RESET ≠ MORSE_CHAR_DOT →
  MORSE_CHAR_DECODE_RESET ≠ MORSE_CHAR_DASH →
  MORSE_CHAR_DECODE_RESET ≠ MORSE_CHAR_END_OF_CHAR →
  MorseDecode MORSE_CHAR_DECODE_RESET s =
    Some (to_char SUCCESS, set_temp (chartree s) s).
Proof.
  intros H1 H2 H3. unfold MorseDecode.
  apply Z.eqb_neq in H1, H2, H3. by rewrite H1, H2, H3, Z.eqb_refl.
Qed.

Lemma decode_all_ok inps : ∀ s,
  decoder_ok s →
  ∃ cs s', decode_all inps s = Some (cs, s') ∧ length cs = length inps ∧
           decoder_ok s' ∧ heap s' = heap s ∧ chartree s' = chartree s.
Proof.
  induction inps as [|i inps IH]; intros s Hs; simpl.
  - by exists [], s.
  - destruct (MorseDecode_ok i s Hs) as (c & s1 & -> & Hs1 & Hh & Hr).
    destruct (IH s1 Hs1) as (cs & s' & Hd & Hlen & Hs' & Hh' & Hr').
    simpl. rewrite Hd. simpl. exists (c :: cs), s'.
    split; [done|]. split; [simpl; lia|]. split; [done|]. split; congruence.
Qed.

(** X15.  After [MorseInit] with room for the whole tree on a well-formed
    heap, and after any sequence of calls of [MorseDecode] whatever, valid
    symbols or not, a reset returns [SUCCESS] and the code of a letter or
    digit keyed after it returns that character; the decoder is then as
    [MorseInit] left it. *)
Theorem X15_reset_recovers past s0 rest pre cp :
  SUCCESS ≠ STANDARD_ERROR →
  MORSE_CHAR_DASH ≠ MORSE_CHAR_DOT →
  MORSE_CHAR_END_OF_CHAR ≠ MORSE_CHAR_DOT →
  MORSE_CHAR_END_OF_CHAR ≠ MORSE_CHAR_DASH →
  MORSE_CHAR_DECODE_RESET ≠ MORSE_CHAR_DOT →
  MORSE_CHAR_DECODE_RESET ≠ MORSE_CHAR_DASH →
  MORSE_CHAR_DECODE_RESET ≠ MORSE_CHAR_END_OF_CHAR →
  heap_wf (heap s0) →
  supply (heap s0) = replicate 127 true ++ rest →
  cp ∈ morse_code →
  ∃ s cs,
    MorseInit past s0 = (SUCCESS, s) ∧
    length cs = length pre ∧
    decode_all (pre ++ MORSE_CHAR_DECODE_RESET :: keyed cp) s =
      Some (cs ++ to_char SUCCESS :: answered cp, s).
Proof.
  intros Hne Hdd Hed Hea Hrd Hra Hre Hwf Hs Hcp.
  destruct (MorseInit_built past s0 rest Hs) as (s & Hinit & Htemp & _ & Hrep).
  destruct (MorseInit_ok past s0 s Hne Hwf Hinit) as [Hok _].
  destruct (decode_all_ok pre s Hok) as (cs & s1 & Hrun & Hlen & _ & Hh & Hr).
  exists s, cs. split; [done|]. split; [done|].
  rewrite decode_all_app, Hrun. cbn [mbind option_bind decode_all].
  rewrite (MorseDecode_reset s1 Hrd Hra Hre). cbn [mbind option_bind].
  assert (set_temp (chartree s1) s1 = s) as ->.
  { unfold set_temp. rewrite Hh, Hr. rewrite <- Htemp at 2. by destruct s. }
  pose proof (morse_code_payloads past) as Hpay.
  rewrite Forall_forall in Hpay.
  by rewrite (decode_code s _ cp Hdd Hed Hea Htemp Hrep (Hpay cp Hcp)).
Qed.

End DecoderReset.

(** ** The further theorems at concrete inputs *)

(** [X1_TreeCreate_builds] for [TreeCreate(1, "ABC")] with room for its three
    nodes. *)
Lemma X1_TreeCreate_builds_witness :
  ∃ h',
    TreeCreate 1 abc (empty_heap (replicate 3 true) garbage) = (1%N, h') ∧
    supply h' = [] ∧
    represents (cells h') 1%N (built 1 abc) ∧
    ∀ path, (length path ≤ 1)%nat →
      ∃ c l r, subtree (built 1 abc) path = Fork c l r ∧
               (length path = 1%nat → l = Empty ∧ r = Empty).
Proof.
  apply (X1_TreeCreate_builds 1 abc (empty_heap (replicate 3 true) garbage)
           []).
  - lia.
  - reflexivity.
Defined.

(** [X2_TreeCreate_reads] for [TreeCreate(1, ...)] on "ABC" and "ABZ". *)
Lemma X2_TreeCreate_reads_witness :
  TreeCreate 1 abc tight_heap =
  TreeCreate 1 (array [chr "A"; chr "B"; chr "Z"] zeros) tight_heap.
Proof.
  apply (X2_TreeCreate_reads 1 abc
           (array [chr "A"; chr "B"; chr "Z"] zeros) tight_heap).
  - lia.
  - intros [|[|i]] Hi; [reflexivity..|simpl in Hi; lia].
Defined.

(** [X3_TreeCreate_frame] for [TreeCreate(1, "ABC")] with the second
    allocation failing. *)
Lemma X3_TreeCreate_frame_witness :
  let r := TreeCreate 1 abc tight_heap in
  heap_wf r.2 ∧
  (∀ q n, cells tight_heap !! q = Some n → cells r.2 !! q = Some n) ∧
  (r.1 = NULL ∨ (cells tight_heap !! r.1 = None ∧ is_Some (cells r.2 !! r.1))).
Proof.
  apply (X3_TreeCreate_frame 1 abc tight_heap).
  - apply empty_heap_wf.
  - by vm_compute.
Defined.

(** [X4_TreeCreate_allocations] for the same call. *)
Lemma X4_TreeCreate_allocations_witness :
  let r := TreeCreate 1 abc tight_heap in
  ∃ used, supply tight_heap = used ++ supply r.2 ∧
          (length used ≤ 2 ^ 2 - 1)%nat ∧
          (brk r.2 ≤ brk tight_heap + N.of_nat (length used))%N.
Proof.
  apply (X4_TreeCreate_allocations 1 abc tight_heap
           (TreeCreate 1 abc tight_heap).1).
  by vm_compute.
Defined.

(** [X5_MorseInit_result] on the empty heap with room for the tree. *)
Lemma X5_MorseInit_result_witness :
  ((MorseInit (H := lab8_headers) zeros unbooted).1 = 1 ↔
   head (supply (heap unbooted)) = Some true) ∧
  (head (supply (heap unbooted)) ≠ Some true →
     (MorseInit (H := lab8_headers) zeros unbooted).1 = 0 ∧
     chartree (MorseInit (H := lab8_headers) zeros unbooted).2 = NULL ∧
     temp (MorseInit (H := lab8_headers) zeros unbooted).2 = temp unbooted ∧
     cells (heap (MorseInit (H := lab8_headers) zeros unbooted).2) =
       cells (heap unbooted)).
Proof.
  apply (X5_MorseInit_result (H := lab8_headers) zeros unbooted).
  by vm_compute.
Defined.

(** [X6_morse_round_trip] for the message SOS. *)
Lemma X6_morse_round_trip_witness :
  ∃ s, MorseInit (H := lab8_headers) zeros unbooted = (1, s) ∧
       decode_all (H := lab8_headers)
         ([(chr "S", path_of "..."); (chr "O", path_of "---");
           (chr "S", path_of "...")] ≫= keyed (H := lab8_headers)) s =
         Some ([(chr "S", path_of "..."); (chr "O", path_of "---");
                (chr "S", path_of "...")] ≫= answered (H := lab8_headers),
               s).
Proof.
  apply (X6_morse_round_trip (H := lab8_headers) zeros unbooted []).
  - by vm_compute.
  - by vm_compute.
  - by vm_compute.
  - reflexivity.
  - repeat constructor.
Defined.

(** [X7_seven_levels] for six dots and a dash. *)
Lemma X7_seven_levels_witness :
  ∃ s s', MorseInit (H := lab8_headers) zeros unbooted = (1, s) ∧
          decode_all (H := lab8_headers) (replicate 6 46) s =
            Some (replicate 6 (to_char 1), s') ∧
          MorseDecode (H := lab8_headers) 45 s' = Some (to_char 0, s').
Proof.
  apply (X7_seven_levels (H := lab8_headers) zeros unbooted []
           (replicate 6 false) true).
  - by vm_compute.
  - reflexivity.
  - reflexivity.
Defined.

(** [X8_invalid_symbol_skipped] for an ['x'] in the middle of the code of
    [A]. *)
Lemma X8_invalid_symbol_skipped_witness :
  decode_all (H := lab8_headers) ([46] ++ chr "x" :: [45; 35]) booted =
    '(cs, s') ← decode_all (H := lab8_headers) ([46] ++ [45; 35]) booted;
    Some (take 1 cs ++ to_char 0 :: drop 1 cs, s').
Proof.
  apply (X8_invalid_symbol_skipped (H := lab8_headers) [46] [45; 35]
           (chr "x") booted); by vm_compute.
Defined.

(** [X9_byte_behind_the_table] with a ['?'] behind the array. *)
Lemma X9_byte_behind_the_table_witness :
  (∀ past' s1, past' 0%nat = chr "?" →
               MorseInit (H := lab8_headers) past' s1 =
               MorseInit (H := lab8_headers) (λ _, chr "?") s1) ∧
  ∃ s, MorseInit (H := lab8_headers) (λ _, chr "?") unbooted = (1, s) ∧
       decode_all (H := lab8_headers) (replicate 6 45 ++ [35]) s =
         Some (replicate 6 (to_char 1) ++ [chr "?"], s).
Proof.
  apply (X9_byte_behind_the_table (H := lab8_headers) (λ _, chr "?")
           unbooted []).
  - by vm_compute.
  - by vm_compute.
  - by vm_compute.
  - reflexivity.
Defined.

(** [X10_keying_a_symbol] for a hold of three ticks after two ticks of
    waiting. *)
Lemma X10_keying_a_symbol_witness :
  ticks (H := lab8_headers) ([0; 64] ++ [128] ++ [0; 0; 0] ++ [64])
        detector_init =
    (no_events (2 + 1 + 3) ++
       [if decide (Z.of_nat 3 ≤ 50) then MORSE_EVENT_DOT
        else MORSE_EVENT_DASH],
     mkDetector INTER_LETTER 64 0).
Proof.
  apply (X10_keying_a_symbol (H := lab8_headers) [0; 64] 128 [0; 0; 0] 64
           detector_init).
  - simpl. lia.
  - reflexivity.
  - repeat constructor; by vm_compute.
  - reflexivity.
  - repeat constructor; by vm_compute.
  - reflexivity.
Defined.

(** [X11_short_gap] for a press on the third tick after a release. *)
Lemma X11_short_gap_witness :
  ticks (H := lab8_headers) ([0; 0] ++ [128]) (mkDetector INTER_LETTER 64 0) =
    (no_events (2 + 1), mkDetector DOT 128 0).
Proof.
  apply (X11_short_gap (H := lab8_headers) [0; 0] 128
           (mkDetector INTER_LETTER 64 0)).
  - simpl. lia.
  - reflexivity.
  - reflexivity.
  - repeat constructor; by vm_compute.
  - reflexivity.
  - simpl. lia.
Defined.

(** [X12_word_gap] for 99 ticks without events and a press on the 100th. *)
Lemma X12_word_gap_witness :
  ticks (H := lab8_headers) (replicate 99 0 ++ [128])
        (mkDetector INTER_LETTER 64 0) =
    (no_events (length (replicate 99 0)) ++ [MORSE_EVENT_INTER_WORD],
     mkDetector WAITING 128 100).
Proof.
  apply (X12_word_gap (H := lab8_headers) (replicate 99 0) 128
           (mkDetector INTER_LETTER 64 0)).
  - simpl. lia.
  - reflexivity.
  - reflexivity.
  - apply Forall_replicate. by vm_compute.
  - reflexivity.
Defined.

(** [X14_one_word_gap_per_symbol] for a dot followed by a long silence. *)
Lemma X14_one_word_gap_per_symbol_witness :
  words_follow_symbols false
    (ticks (H := lab8_headers) ([128; 64] ++ replicate 300 0)
           detector_init).1 = true.
Proof.
  apply (X14_one_word_gap_per_symbol (H := lab8_headers)
           ([128; 64] ++ replicate 300 0) detector_init).
  done.
Defined.

(** [X15_reset_recovers] for a run that ends inside a code and holds an
    invalid symbol, and the letter [K] after the reset. *)
Lemma X15_reset_recovers_witness :
  ∃ s cs,
    MorseInit (H := lab8_headers) zeros unbooted = (1, s) ∧
    length cs = length [46; 46; chr "x"; 45] ∧
    decode_all (H := lab8_headers)
      ([46; 46; chr "x"; 45] ++
         0 :: keyed (H := lab8_headers) (chr "K", path_of "-.-")) s =
      Some (cs ++ to_char 1 ::
              answered (H := lab8_headers) (chr "K", path_of "-.-"), s).
Proof.
  apply (X15_reset_recovers (H := lab8_headers) zeros unbooted []
           [46; 46; chr "x"; 45] (chr "K", path_of "-.-"));
    try (by vm_compute).
  - apply empty_heap_wf.
  - repeat constructor.
Defined.
